(** * Ringdown waveforms from quasinormal-mode templates

    A shallow embedding of [BH_waveforms.py]: the QNM template table
    ([qnm_data]), the spin interpolator ([interpolate_entry]), the
    perturbative frequency model ([get_frequency]) and the time-domain
    synthesiser ([generate_waveform]).

    Conventions of the embedding.
    - A Python [float] is a real number of [R]: rounding is abstracted, so
      the tolerances the specification grants (1e-9) become equalities.
    - The module-level dictionary [qnm_data] is an explicit argument, a
      finite map from mode keys [(l, n)] to the list of the mode's entries.
    - A raised exception is the left injection of a sum; the constructors of
      [exception] name the Python exception and the place that raises it.
    - [numpy]'s [arange], [zeros_like], [exp], [cos] and the elementwise
      arithmetic on arrays are lists of reals and maps over them. *)

From Stdlib Require Import Reals Lra Lia ZArith List Zfloor.
From Stdlib Require Import Sorting.Sorted Sorting.Permutation.
From stdpp Require Import base option list gmap strings.

Open Scope R_scope.

(** ** Data model *)

(** The key [(l, n)] of a mode. *)
Abbreviation mode_key := (Z * Z)%type.

(** One template entry: the dictionary with the seven keys that
    [load_QNM_templates] appends to a mode's list. *)
Record entry : Type := Entry {
  entry_a : R;
  entry_omega0_R : R;
  entry_omega0_I : R;
  entry_alpha1 : R;
  entry_alpha2 : R;
  entry_beta1 : R;
  entry_beta2 : R
}.

(** The exceptions the module can raise. [ValueError_mode_not_found] and
    [RuntimeError_mode_not_available] are the two renderings of an unknown
    mode; [ValueError_out_of_range a min_a max_a k] is the out-of-range
    failure, carrying the bounds its message prints. [IndexError] and
    [ZeroDivisionError] are the interpreter's own. *)
Inductive exception : Type :=
| ValueError_mode_not_found (k : mode_key)
| ValueError_out_of_range (a min_a max_a : R) (k : mode_key)
| RuntimeError_mode_not_available
| IndexError
| ZeroDivisionError.

(** A computation that returns a value or raises. *)
Definition result (A : Type) : Type := (exception + A)%type.

Definition ret {A} (x : A) : result A := inr x.
Definition raise {A} (e : exception) : result A := inl e.
Definition bind {A B} (m : result A) (f : A -> result B) : result B :=
  match m with
  | inl e => inl e
  | inr x => f x
  end.

Notation "'let*' x ':=' m 'in' k" := (bind m (fun x => k))
  (at level 10, x name, m at level 100, k at level 200).

(** Python complex number [complex(re, im)]. *)
Record complex : Type := Complex { real : R; imag : R }.

(** ** Comparisons on floats, as booleans *)

Definition Rltb (x y : R) : bool := if Rlt_dec x y then true else false.
Definition Reqb (x y : R) : bool := if Req_dec_T x y then true else false.

(** ** Loading the table *)

(** A row of the CSV file after [float] and [int] have parsed its columns.
    The columns [alpha2] and [beta2] may be the empty string, which is
    [None] here. *)
Record row : Type := Row {
  row_a : R;
  row_l : Z;
  row_n : Z;
  row_omega0_R : R;
  row_omega0_I : R;
  row_alpha1 : R;
  row_beta1 : R;
  row_alpha2 : option R;
  row_beta2 : option R
}.

(** The entry a row is stored as: an absent second-order coefficient is
    [0.0]. *)
Definition entry_of_row (r : row) : entry :=
  {| entry_a := row_a r;
     entry_omega0_R := row_omega0_R r;
     entry_omega0_I := row_omega0_I r;
     entry_alpha1 := row_alpha1 r;
     entry_alpha2 := default 0 (row_alpha2 r);
     entry_beta1 := row_beta1 r;
     entry_beta2 := default 0 (row_beta2 r) |}.

(** The body of [for row in reader]: create the mode's list when the key is
    new, then append the entry. *)
Definition append_row (qnm_data : gmap mode_key (list entry)) (r : row)
    : gmap mode_key (list entry) :=
  let mode_key0 := (row_l r, row_n r) in
  <[ mode_key0 := default [] (qnm_data !! mode_key0) ++ [entry_of_row r] ]> qnm_data.

(** [entries.sort(key=lambda entry: entry['a'])]: a stable sort, ascending
    in the spin. An element is inserted in front of the first one whose spin
    is not smaller, so entries of equal spin keep their order. *)
Fixpoint insert_by_spin (e : entry) (entries : list entry) : list entry :=
  match entries with
  | [] => [e]
  | x :: rest =>
      if Rltb (entry_a x) (entry_a e) then x :: insert_by_spin e rest
      else e :: entries
  end.

Definition sort_by_spin (entries : list entry) : list entry :=
  foldr insert_by_spin [] entries.

Definition load_QNM_templates (rows : list row) : gmap mode_key (list entry) :=
  sort_by_spin <$> foldl append_row ∅ rows.

(** ** Python list indexing *)

(** [entries[i]] for a possibly negative [i]: a negative index counts from
    the end, and an index outside the list raises [IndexError]. *)
Definition py_getitem {A} (l : list A) (i : Z) : result A :=
  let j := if (i <? 0)%Z then (Z.of_nat (length l) + i)%Z else i in
  if (j <? 0)%Z then raise IndexError
  else match nth_error l (Z.to_nat j) with
       | Some x => ret x
       | None => raise IndexError
       end.

(** ** The spin interpolator *)

(** The absolute tolerance of the exact-match scan. *)
Definition tol : R := 1e-6.

(** [for entry in entries: if abs(entry['a'] - a) < 1e-6: return entry]:
    the first entry, in list order, whose spin is within [tol] of [a]. *)
Fixpoint exact_match (entries : list entry) (a : R) : option entry :=
  match entries with
  | [] => None
  | e :: rest =>
      if Rltb (Rabs (entry_a e - a)) tol then Some e else exact_match rest a
  end.

(** [idx_higher = 0; while entries[idx_higher]['a'] < a: idx_higher += 1],
    started at index [idx] on the suffix [entries]. Running off the end of
    the list is the [IndexError] of [entries[idx_higher]]. *)
Fixpoint scan_higher (entries : list entry) (a : R) (idx : Z) : result Z :=
  match entries with
  | [] => raise IndexError
  | e :: rest =>
      if Rltb (entry_a e) a then scan_higher rest a (idx + 1)%Z else ret idx
  end.

(** The inner function [lerp] of [interpolate_entry]. *)
Definition lerp (frac x y : R) : R := x + frac * (y - x).

(** Float division, raising on a zero divisor. *)
Definition py_div (x y : R) : result R :=
  if Reqb y 0 then raise ZeroDivisionError else ret (x / y).

Definition interpolate_entry (qnm_data : gmap mode_key (list entry))
    (mode_key0 : mode_key) (a : R) : result entry :=
  match qnm_data !! mode_key0 with
  | None => raise (ValueError_mode_not_found mode_key0)
  | Some entries =>
      match exact_match entries a with
      | Some e => ret e
      | None =>
          let* e_first := py_getitem entries 0 in
          let* e_last := py_getitem entries (-1) in
          let min_a := entry_a e_first in
          let max_a := entry_a e_last in
          if Rltb a min_a || Rltb max_a a
          then raise (ValueError_out_of_range a min_a max_a mode_key0)
          else
            let* idx_higher := scan_higher entries a 0 in
            let idx_lower := (idx_higher - 1)%Z in
            let* e_low := py_getitem entries idx_lower in
            let* e_high := py_getitem entries idx_higher in
            let a_low := entry_a e_low in
            let a_high := entry_a e_high in
            let* frac := py_div (a - a_low) (a_high - a_low) in
            ret {| entry_a := a;
                   entry_omega0_R := lerp frac (entry_omega0_R e_low) (entry_omega0_R e_high);
                   entry_omega0_I := lerp frac (entry_omega0_I e_low) (entry_omega0_I e_high);
                   entry_alpha1 := lerp frac (entry_alpha1 e_low) (entry_alpha1 e_high);
                   entry_alpha2 := lerp frac (entry_alpha2 e_low) (entry_alpha2 e_high);
                   entry_beta1 := lerp frac (entry_beta1 e_low) (entry_beta1 e_high);
                   entry_beta2 := lerp frac (entry_beta2 e_low) (entry_beta2 e_high) |}
      end
  end.

(** ** The perturbative frequency model *)

Definition get_frequency (qnm_data : gmap mode_key (list entry))
    (a : R) (l n : Z) (eps : R) : result complex :=
  let mode_key0 := (l, n) in
  match qnm_data !! mode_key0 with
  | None => raise RuntimeError_mode_not_available
  | Some _ =>
      let* entry0 := interpolate_entry qnm_data mode_key0 a in
      let omega_R0 := entry_omega0_R entry0 in
      let omega_I0 := entry_omega0_I entry0 in
      let alpha1 := entry_alpha1 entry0 in
      let beta1 := entry_beta1 entry0 in
      let alpha2 := entry_alpha2 entry0 in
      let beta2 := entry_beta2 entry0 in
      let delta_omega_R := alpha1 * eps + alpha2 * (eps ^ 2) in
      let delta_omega_I := beta1 * eps + beta2 * (eps ^ 2) in
      let omega_R := omega_R0 + delta_omega_R in
      let omega_I := omega_I0 + delta_omega_I in
      ret (Complex omega_R omega_I)
  end.

(** ** The waveform synthesiser *)

(** [np.arange(start, stop, step)] on floats: [ceil((stop - start) / step)]
    points (none when that is not positive), the [i]-th being
    [start + i * step]; a zero step is a division by zero. *)
Definition np_arange (start stop step : R) : result (list R) :=
  let* q := py_div (stop - start) step in
  let len := Z.to_nat (Zceil q) in
  ret (map (fun i : nat => start + INR i * step) (seq 0 len)).

(** [np.zeros_like(t)]. *)
Definition np_zeros_like (t : list R) : list R := map (fun _ => 0) t.

(** The contribution of one mode on the grid [t]:
    [A_ln * np.exp(omega_I * t) * np.cos(omega_R * t)] with [A_ln = 1.0]. *)
Definition h_mode (omega : complex) (t : list R) : list R :=
  let omega_R := real omega in
  let omega_I := imag omega in
  let A_ln := 1 in
  map (fun ti => A_ln * exp (omega_I * ti) * cos (omega_R * ti)) t.

(** The body of [for (l, n) in modes], threading the accumulator
    [h_total]; the first failing [get_frequency] ends the loop. *)
Fixpoint modes_loop (qnm_data : gmap mode_key (list entry)) (spin eps : R)
    (modes : list mode_key) (t h_total : list R) : result (list R) :=
  match modes with
  | [] => ret h_total
  | (l, n) :: rest =>
      let* omega := get_frequency qnm_data spin l n eps in
      modes_loop qnm_data spin eps rest t (zip_with Rplus h_total (h_mode omega t))
  end.

Definition generate_waveform (qnm_data : gmap mode_key (list entry))
    (mass spin eps : R) (modes : list mode_key) (duration dt : R)
    : result (list R * list R) :=
  let* t := np_arange 0 duration dt in
  let h_total := np_zeros_like t in
  let* h := modes_loop qnm_data spin eps modes t h_total in
  ret (t, h).


(** ** Predicates of the statements *)

(** Ascending order of the spins, as [load_QNM_templates] leaves every
    mode's list. *)
Definition spin_le (x y : entry) : Prop := entry_a x <= entry_a y.
Definition sorted_by_spin (entries : list entry) : Prop := Sorted spin_le entries.

(** The invariant of a loaded table: no mode has an empty list, and every
    list is ascending in the spin. *)
Definition store_ok (qnm_data : gmap mode_key (list entry)) : Prop :=
  map_Forall (fun _ entries => entries <> [] /\ sorted_by_spin entries) qnm_data.

(** The least and the greatest stored spin of a mode. *)
Definition is_min_spin (entries : list entry) (m : R) : Prop :=
  In m (map entry_a entries) /\ Forall (fun s => m <= s) (map entry_a entries).
Definition is_max_spin (entries : list entry) (m : R) : Prop :=
  In m (map entry_a entries) /\ Forall (fun s => s <= m) (map entry_a entries).

(** No stored spin of the list is within the tolerance of [a]. *)
Definition off_grid (entries : list entry) (a : R) : Prop :=
  Forall (fun e => tol <= Rabs (entry_a e - a)) entries.

(** The linear interpolation between two entries at the spin [a], field by
    field, as the specification words it. *)
Definition interpolated (lower upper : entry) (a : R) : entry :=
  let frac := (a - entry_a lower) / (entry_a upper - entry_a lower) in
  {| entry_a := a;
     entry_omega0_R := entry_omega0_R lower + frac * (entry_omega0_R upper - entry_omega0_R lower);
     entry_omega0_I := entry_omega0_I lower + frac * (entry_omega0_I upper - entry_omega0_I lower);
     entry_alpha1 := entry_alpha1 lower + frac * (entry_alpha1 upper - entry_alpha1 lower);
     entry_alpha2 := entry_alpha2 lower + frac * (entry_alpha2 upper - entry_alpha2 lower);
     entry_beta1 := entry_beta1 lower + frac * (entry_beta1 upper - entry_beta1 lower);
     entry_beta2 := entry_beta2 lower + frac * (entry_beta2 upper - entry_beta2 lower) |}.

(** The sum of a list of reals. *)
Definition Rsum (l : list R) : R := foldr Rplus 0 l.

(** The uniform grid [0, dt, 2 dt, ...] below [duration]. *)
Definition time_grid (duration dt : R) : list R :=
  map (fun i : nat => INR i * dt) (seq 0 (Z.to_nat (Zceil (duration / dt)))).

(** The frequencies of a list of modes, when every lookup succeeds. *)
Definition frequencies_of (qnm_data : gmap mode_key (list entry)) (spin eps : R)
    (modes : list mode_key) (omegas : list complex) : Prop :=
  Forall2 (fun k omega => get_frequency qnm_data spin (fst k) (snd k) eps = inr omega)
          modes omegas.

(** The lookup of the frequency of the mode [k] returns. *)
Definition lookup_succeeds (qnm_data : gmap mode_key (list entry)) (spin eps : R)
    (k : mode_key) : Prop :=
  exists omega, get_frequency qnm_data spin (fst k) (snd k) eps = inr omega.

(** ** Concrete tables *)

(** The two rows of the scenario table for the mode [(2, 0)]. *)
Definition row_0 : row := Row 0 2 0 0.50 (-0.10) 0.02 (-0.01) None None.
Definition row_1 : row := Row 1 2 0 0.60 (-0.08) 0.03 (-0.015) None None.

Definition entry_0 : entry := Entry 0 0.50 (-0.10) 0.02 0 (-0.01) 0.
Definition entry_1 : entry := Entry 1 0.60 (-0.08) 0.03 0 (-0.015) 0.

Definition table_20 : gmap mode_key (list entry) :=
  {[ (2%Z, 0%Z) := [entry_0; entry_1] ]}.

(** The frequency of the mode [(2, 0)] of the scenario table at spin 0 and
    eps 0, as [get_frequency] computes it. *)
Definition omega_20 : complex :=
  Complex (0.50 + (0.02 * 0 + 0 * 0 ^ 2)) (-0.10 + (-0.01 * 0 + 0 * 0 ^ 2)).

(** A third row, with the spin of [row_0] and other frequencies. *)
Definition row_0_again : row := Row 0 2 0 0.51 (-0.11) 0.02 (-0.01) None None.

(** A table whose two spins are closer to each other than the tolerance. *)
Definition entry_near_lo : entry := Entry 0.5 1 (-0.1) 0 0 0 0.
Definition entry_near_hi : entry := Entry 0.5000005 2 (-0.2) 0 0 0 0.

Definition table_near : gmap mode_key (list entry) :=
  {[ (2%Z, 0%Z) := [entry_near_lo; entry_near_hi] ]}.

(** ** The rows of a mode *)

(** The key under which [load_QNM_templates] files a row. *)
Definition row_mode (r : row) : mode_key := (row_l r, row_n r).

(** The entries of the rows of the mode [k], in the order of the rows. *)
Definition entries_of_mode (k : mode_key) (rows : list row) : list entry :=
  entry_of_row <$> filter (fun r => row_mode r = k) rows.

(** The entries of a list stored at exactly the spin [s], in list order. *)
Definition with_spin (s : R) (entries : list entry) : list entry :=
  List.filter (fun e => Reqb (entry_a e) s) entries.

(** The six numeric fields of an entry besides its spin. *)
Definition fields : list (entry -> R) :=
  [entry_omega0_R; entry_omega0_I; entry_alpha1; entry_alpha2; entry_beta1; entry_beta2].

(** * The shear-enhancement scripts *)

(** ** [shear_enhancement.py]: the model functions *)

Module shear_enhancement.

(** Model parameters. *)
Definition B_max : R := 0.30.
Definition sigma_ref : R := 900.0.
Definition f_high : R := 0.15.

(** Shear enhancement for the low-density environment. *)
Definition B_low (sigma_v : R) : R := 1.0 + B_max * tanh (sigma_v / 2064.0).

(** Shear enhancement for the high-density environment. *)
Definition B_high (sigma_v : R) : R := 1.0 + f_high * B_max * tanh (sigma_v / 2064.0).

End shear_enhancement.

(** ** [simulate_shear_enhancement.py]: the tabulated interpolator *)

Module simulate_shear_enhancement.

(** The exceptions of the script: the missing data file, the mode that
    is neither ["low"] nor ["high"], and the interpreter's own. *)
Inductive exception : Type :=
| FileNotFoundError
| ValueError_mode
| IndexError
| ZeroDivisionError.

Definition result (A : Type) : Type := (exception + A)%type.

Definition bind {A B} (m : result A) (f : A -> result B) : result B :=
  match m with
  | inl e => inl e
  | inr x => f x
  end.

(** The three module-level lists. *)
Record data : Type := Data {
  _sigma_values : list R;
  _B_low_values : list R;
  _B_high_values : list R
}.

(** The three lists have one length. *)
Definition aligned (d : data) : Prop :=
  length (_B_low_values d) = length (_sigma_values d) /\
  length (_B_high_values d) = length (_sigma_values d).

(** The list that a mode selects. *)
Definition selects (d : data) (mode : string) (values : list R) : Prop :=
  (mode = "low" /\ values = _B_low_values d) \/
  (mode = "high" /\ values = _B_high_values d).

(** [l[i]] on a list of floats. *)
Definition getitem (l : list R) (i : Z) : result R :=
  match py_getitem l i with
  | inl _ => inl IndexError
  | inr x => inr x
  end.

(** Float division. *)
Definition div (x y : R) : result R :=
  if Reqb y 0 then inl ZeroDivisionError else inr (x / y).

Section with_builtins.

(** [float(s)] on a cell of the file, [None] when it raises
    [ValueError]; and the test [s.strip().startswith('#')]. *)
Variable py_float : string -> option R.
Variable is_comment : string -> bool.

(** The body of [for row in reader]. *)
Definition load_row (d : data) (row : list string) : data :=
  match row with
  | [] => d
  | cell0 :: _ =>
      if is_comment cell0 then d
      else if (length row <? 3)%nat then d
      else
        match py_float cell0 with
        | None => d
        | Some sigma =>
            match py_float (nth 1 row EmptyString) with
            | None => d
            | Some B_low =>
                match py_float (nth 2 row EmptyString) with
                | None => d
                | Some B_high =>
                    {| _sigma_values := _sigma_values d ++ [sigma];
                       _B_low_values := _B_low_values d ++ [B_low];
                       _B_high_values := _B_high_values d ++ [B_high] |}
                end
            end
        end
  end.

(** [_load_data]: the rows of the file as [csv.reader] yields them, or
    no file at all. The lists are emptied first. *)
Definition _load_data (file : option (list (list string))) : result data :=
  match file with
  | None => inl FileNotFoundError
  | Some rows => inr (foldl load_row (Data [] [] []) rows)
  end.

(** The body of [for i in range(1, len(_sigma_values))], over the
    indices still to visit. [None] is the loop running to its end. *)
Fixpoint interval_loop (sigma values : list R) (sigma_v : R) (indices : list nat)
    : option (result R) :=
  match indices with
  | [] => None
  | i :: rest =>
      match getitem sigma (Z.of_nat i) with
      | inl e => Some (inl e)
      | inr sigma_i =>
          if Rltb sigma_v sigma_i then
            Some (bind (getitem sigma (Z.of_nat i - 1)) (fun sigma_low =>
                  bind (getitem sigma (Z.of_nat i)) (fun sigma_high =>
                  bind (getitem values (Z.of_nat i - 1)) (fun B_low =>
                  bind (getitem values (Z.of_nat i)) (fun B_high =>
                  bind (div (sigma_v - sigma_low) (sigma_high - sigma_low)) (fun frac =>
                  inr (B_low + frac * (B_high - B_low))))))))
          else interval_loop sigma values sigma_v rest
      end
  end.

(** [interpolate_B(sigma_v, mode)] on the current lists [d]; [file] is
    the data file, read only when the lists are empty. *)
Definition interpolate_B (file : option (list (list string))) (d : data)
    (sigma_v : R) (mode : string) : result R :=
  bind (match _sigma_values d with
        | [] => _load_data file
        | _ :: _ => inr d
        end) (fun d =>
  bind (if String.eqb mode "low" then inr (_B_low_values d)
        else if String.eqb mode "high" then inr (_B_high_values d)
        else inl ValueError_mode) (fun values =>
  let sigma := _sigma_values d in
  bind (getitem sigma 0) (fun sigma_first =>
  if Rltb sigma_first sigma_v then
    bind (getitem sigma (-1)) (fun sigma_last =>
    if Rltb sigma_v sigma_last then
      match interval_loop sigma values sigma_v
              (seq 1 (length sigma - 1)) with
      | Some r => r
      | None => getitem values (-1)
      end
    else getitem values (-1))
  else getitem values 0))).

End with_builtins.

End simulate_shear_enhancement.

Module SSE := simulate_shear_enhancement.

(** * The erasure simulation *)

(** ** [entropy_tax.py] *)

Module entropy_tax.

(** The exceptions of the script, all the interpreter's own: a float
    division by zero, [math.exp] out of range, and an index outside a
    list. *)
Inductive exception : Type :=
| ZeroDivisionError
| OverflowError
| IndexError.

Definition result (A : Type) : Type := (exception + A)%type.

Definition bind {A B} (m : result A) (f : A -> result B) : result B :=
  match m with
  | inl e => inl e
  | inr x => f x
  end.

(** Physical constants. *)
Definition k_B : R := 1.380649e-23.

(** Float division. *)
Definition div (x y : R) : result R :=
  if Reqb y 0 then inl ZeroDivisionError else inr (x / y).

(** [int(x)] on a float: truncation towards zero. *)
Definition py_int (x : R) : Z := if Rltb x 0 then Zceil x else Zfloor x.

(** The state the loop of [simulate_landauer_erasure] updates. *)
Record state : Type := State {
  P_excited : R;
  system_energy : R;
  Q_env : R
}.

(** One pass of the loop body after the three [append]s: the Euler step,
    the two clamps and the heat bookkeeping. *)
Definition update (gamma_down gamma_up E dt : R) (s : state) : state :=
  let dP_dt := - gamma_down * P_excited s + gamma_up * (1.0 - P_excited s) in
  let P1 := P_excited s + dP_dt * dt in
  let P2 := if Rltb P1 0 then 0.0 else P1 in
  let P3 := if Rltb 1 P2 then 1.0 else P2 in
  let dE_system := P3 * E - system_energy s in
  {| P_excited := P3;
     system_energy := system_energy s + dE_system;
     Q_env := Q_env s - dE_system |}.

(** [for step in range(...)]: the steps still to run, the state, and the
    three lists built so far. *)
Fixpoint erasure_loop (gamma_down gamma_up E dt : R) (steps : list nat) (s : state)
    (times P_values Q_values : list R) : list R * list R * list R :=
  match steps with
  | [] => (times, P_values, Q_values)
  | step :: rest =>
      let t := INR step * dt in
      erasure_loop gamma_down gamma_up E dt rest (update gamma_down gamma_up E dt s)
        (times ++ [t]) (P_values ++ [P_excited s]) (Q_values ++ [Q_env s])
  end.

(** [compute_chi0_from_theory(c)]. *)
Definition compute_chi0_from_theory (c : option R) : R :=
  match c with
  | Some c => c / (12.0 * PI)
  | None => 0.02
  end.

Section with_math.

(** Whether [math.exp] raises [OverflowError] at an argument; where it
    does not, its value is the exponential. *)
Variable exp_overflows : R -> bool.

Definition math_exp (x : R) : result R :=
  if exp_overflows x then inl OverflowError else inr (exp x).

(** The thermal occupancy [n_th]. *)
Definition thermal_occupancy (T E : R) : result R :=
  if negb (Rltb 0 T) then inr 0.0
  else
    bind (div E (k_B * T)) (fun x =>
    if Rltb 1e-6 x then
      bind (div E (k_B * T)) (fun y =>
      bind (math_exp y) (fun ey =>
      div 1.0 (ey - 1.0)))
    else inr 0.0).

Definition simulate_landauer_erasure (T E gamma t_max dt : R)
    : result (list R * list R * list R) :=
  bind (thermal_occupancy T E) (fun n_th =>
  let gamma_down := gamma * (n_th + 1.0) in
  let gamma_up := gamma * n_th in
  let P_excited0 := 0.5 in
  let system_energy0 := P_excited0 * E in
  let Q_env0 := 0.0 in
  bind (div t_max dt) (fun q =>
  let n := Z.to_nat (py_int q + 1) in
  inr (erasure_loop gamma_down gamma_up E dt (seq 0 n)
         (State P_excited0 system_energy0 Q_env0) [] [] []))).


End with_math.

End entropy_tax.

Module ET := entropy_tax.

(** A small table of the shear enhancement: two velocity dispersions with
    their two enhancement factors each. *)
Definition shear_table : SSE.data :=
  SSE.Data [0; 100] [1; 1.1] [1; 1.05].

(** * Properties *)

(** ** Boolean comparisons *)

Lemma Rltb_true x y : Rltb x y = true <-> x < y.
Proof. unfold Rltb. destruct (Rlt_dec x y); split; intros; try lra; congruence. Qed.

Lemma Rltb_false x y : Rltb x y = false <-> y <= x.
Proof. unfold Rltb. destruct (Rlt_dec x y); split; intros; try lra; congruence. Qed.

Lemma Reqb_true x y : Reqb x y = true <-> x = y.
Proof. unfold Reqb. destruct (Req_dec_T x y); split; intros; congruence. Qed.

Lemma Reqb_false x y : Reqb x y = false <-> x <> y.
Proof. unfold Reqb. destruct (Req_dec_T x y); split; intros; congruence. Qed.


Lemma tol_pos : 0 < tol.
Proof. unfold tol. lra. Qed.

(** Closeness to [a], as the test of the exact-match loop and as a pair of
    bounds. *)
Lemma within_tol_bounds x a : Rabs (x - a) < tol <-> a - tol < x < a + tol.
Proof.
  split.
  - intros H. apply Rabs_def2 in H. lra.
  - intros H. apply Rabs_def1; lra.
Qed.

Lemma outside_tol_bounds x a : tol <= Rabs (x - a) <-> x <= a - tol \/ a + tol <= x.
Proof.
  split.
  - intros H. destruct (Rle_lt_dec x (a - tol)) as [|H1]; [now left|].
    destruct (Rle_lt_dec (a + tol) x) as [|H2]; [now right|].
    exfalso. assert (Rabs (x - a) < tol) by (apply within_tol_bounds; lra). lra.
  - intros H. destruct (Rlt_le_dec (Rabs (x - a)) tol) as [H1|]; [|assumption].
    apply within_tol_bounds in H1. lra.
Qed.

(** ** The result monad *)

Lemma bind_ret {A B} (x : A) (f : A -> result B) : bind (ret x) f = f x.
Proof. reflexivity. Qed.

Lemma bind_raise {A B} (e : exception) (f : A -> result B) : bind (raise e) f = raise e.
Proof. reflexivity. Qed.

Lemma bind_inr_inv {A B} (m : result A) (f : A -> result B) (y : B) :
  bind m f = inr y -> exists x, m = inr x /\ f x = inr y.
Proof. destruct m as [e|x]; simpl; [discriminate|]. intros H. now exists x. Qed.

(** ** Indexing *)

Lemma nth_error_list_lookup {A} (l : list A) (i : nat) : nth_error l i = l !! i.
Proof.
  revert i. induction l as [|x l IH]; intros [|i]; simpl; try reflexivity. apply IH.
Qed.

Lemma py_getitem_nat {A} (l : list A) (i : nat) (x : A) :
  nth_error l i = Some x -> py_getitem l (Z.of_nat i) = ret x.
Proof.
  intros H. unfold py_getitem.
  assert (E : (Z.of_nat i <? 0)%Z = false) by (apply Z.ltb_ge; lia).
  rewrite !E, Nat2Z.id, H. reflexivity.
Qed.

Lemma py_getitem_first {A} (x : A) (l : list A) : py_getitem (x :: l) 0 = ret x.
Proof. apply (py_getitem_nat (x :: l) 0%nat). reflexivity. Qed.

Lemma py_getitem_last {A} (l : list A) (x : A) : py_getitem (l ++ [x]) (-1) = ret x.
Proof.
  unfold py_getitem. change (-1 <? 0)%Z with true. cbv iota zeta.
  rewrite length_app. simpl length.
  replace (Z.of_nat (length l + 1) + -1)%Z with (Z.of_nat (length l)) by lia.
  assert (E : (Z.of_nat (length l) <? 0)%Z = false) by (apply Z.ltb_ge; lia).
  rewrite E, Nat2Z.id, nth_error_app2 by lia.
  rewrite Nat.sub_diag. reflexivity.
Qed.

Lemma py_getitem_empty {A} (i : Z) : py_getitem (@nil A) i = raise IndexError.
Proof.
  unfold py_getitem. simpl length.
  destruct (i <? 0)%Z eqn:Hi; cbv zeta.
  - apply Z.ltb_lt in Hi.
    assert (E : (Z.of_nat 0 + i <? 0)%Z = true) by (apply Z.ltb_lt; lia).
    now rewrite E.
  - rewrite Hi. destruct (Z.to_nat i); reflexivity.
Qed.

(** ** The exact-match scan *)

Lemma exact_match_None entries a : exact_match entries a = None <-> off_grid entries a.
Proof.
  unfold off_grid. induction entries as [|e rest IH]; simpl.
  - split; [constructor|reflexivity].
  - destruct (Rltb (Rabs (entry_a e - a)) tol) eqn:Hc.
    + apply Rltb_true in Hc. split; [discriminate|].
      intros H. inversion H; subst. lra.
    + apply Rltb_false in Hc. rewrite IH. split.
      * intros H. now constructor.
      * intros H. now inversion H.
Qed.

Lemma off_grid_nil a : off_grid [] a.
Proof. apply Forall_nil_2. Qed.

Lemma off_grid_cons e entries a :
  (entry_a e <= a - tol \/ a + tol <= entry_a e) -> off_grid entries a ->
  off_grid (e :: entries) a.
Proof. intros He H. apply Forall_cons_2; [now apply outside_tol_bounds|exact H]. Qed.

(** The scan returns the first entry within the tolerance. *)
Lemma exact_match_first pre e post a :
  off_grid pre a -> Rabs (entry_a e - a) < tol ->
  exact_match (pre ++ e :: post) a = Some e.
Proof.
  intros Hpre He. induction pre as [|x pre IH]; simpl.
  - apply Rltb_true in He. now rewrite He.
  - inversion Hpre as [|? ? Hx Hrest]; subst.
    apply Rltb_false in Hx. rewrite Hx. now apply IH.
Qed.

Lemma exact_match_Some entries a e :
  exact_match entries a = Some e ->
  exists pre post, entries = pre ++ e :: post /\ off_grid pre a /\
                   Rabs (entry_a e - a) < tol.
Proof.
  induction entries as [|x rest IH]; simpl; [discriminate|].
  destruct (Rltb (Rabs (entry_a x - a)) tol) eqn:Hc.
  - intros [= ->]. apply Rltb_true in Hc.
    exists [], rest. repeat split; [constructor|assumption].
  - intros H. destruct (IH H) as (pre & post & -> & Hpre & He).
    apply Rltb_false in Hc.
    exists (x :: pre), post. repeat split; [now constructor|assumption].
Qed.

Lemma exact_match_exists entries a :
  Exists (fun e => Rabs (entry_a e - a) < tol) entries ->
  exists e, exact_match entries a = Some e.
Proof.
  intros H. destruct (exact_match entries a) as [e|] eqn:Hm; [now exists e|].
  apply exact_match_None in Hm. exfalso.
  apply Exists_exists in H as (e & Hin & He).
  unfold off_grid in Hm. rewrite Forall_forall in Hm.
  specialize (Hm e Hin). lra.
Qed.

(** ** The bracket scan *)

(** When some entry has a spin not below [a], the loop stops at the first
    such entry: every entry before it has a smaller spin. *)
Lemma scan_higher_spec entries a idx :
  Exists (fun e => a <= entry_a e) entries ->
  exists (k : nat) (e_high : entry),
    scan_higher entries a idx = ret (idx + Z.of_nat k)%Z /\
    nth_error entries k = Some e_high /\
    a <= entry_a e_high /\
    forall (j : nat) (e : entry),
      (j < k)%nat -> nth_error entries j = Some e -> entry_a e < a.
Proof.
  revert idx. induction entries as [|x rest IH]; intros idx H.
  - inversion H.
  - simpl. destruct (Rltb (entry_a x) a) eqn:Hc.
    + apply Rltb_true in Hc.
      assert (Hrest : Exists (fun e => a <= entry_a e) rest).
      { inversion H; subst; [lra|assumption]. }
      destruct (IH (idx + 1)%Z Hrest) as (k & e_high & Hs & Hn & Hle & Hlt).
      exists (S k), e_high. repeat split; try assumption.
      * rewrite Hs. f_equal. lia.
      * intros [|j] e Hj Hnth; simpl in Hnth.
        -- now inversion Hnth; subst.
        -- apply (Hlt j); [lia|assumption].
    + apply Rltb_false in Hc.
      exists 0%nat, x. repeat split; try assumption.
      * f_equal. lia.
      * intros j e Hj. lia.
Qed.

(** Without such an entry the loop runs off the end of the list. *)
Lemma scan_higher_overrun entries a idx :
  Forall (fun e => entry_a e < a) entries ->
  scan_higher entries a idx = raise IndexError.
Proof.
  revert idx. induction entries as [|x rest IH]; intros idx H; simpl.
  - reflexivity.
  - inversion H as [|? ? Hx Hrest]; subst.
    apply Rltb_true in Hx. rewrite Hx. now apply IH.
Qed.

(** ** Sorted lists of entries *)

#[local] Instance spin_le_trans : Transitive spin_le.
Proof. intros x y z. unfold spin_le. lra. Qed.

Lemma sorted_first_is_min e rest :
  sorted_by_spin (e :: rest) -> is_min_spin (e :: rest) (entry_a e).
Proof.
  intros H. split; [now left|].
  apply Sorted_StronglySorted in H; [|apply spin_le_trans].
  apply StronglySorted_inv in H as [_ Hall].
  simpl. constructor; [lra|].
  apply Forall_fmap. eapply Forall_impl; [exact Hall|]. intros x Hx. exact Hx.
Qed.

Lemma sorted_app_inv (l1 l2 : list entry) :
  StronglySorted spin_le (l1 ++ l2) ->
  StronglySorted spin_le l1 /\ StronglySorted spin_le l2 /\
  Forall (fun x => Forall (spin_le x) l2) l1.
Proof.
  induction l1 as [|x l1 IH]; simpl; intros H.
  - repeat split; [constructor|assumption|constructor].
  - apply StronglySorted_inv in H as [Hs Hall].
    destruct (IH Hs) as (H1 & H2 & H3).
    apply Forall_app in Hall as [Ha Hb].
    repeat split; [now constructor|assumption|now constructor].
Qed.

Lemma sorted_last_is_max init e :
  sorted_by_spin (init ++ [e]) -> is_max_spin (init ++ [e]) (entry_a e).
Proof.
  intros H. split.
  - rewrite map_app. apply in_or_app. right. now left.
  - apply Sorted_StronglySorted in H; [|apply spin_le_trans].
    apply sorted_app_inv in H as (_ & _ & H).
    rewrite map_app. apply Forall_app. split.
    + apply Forall_fmap. eapply Forall_impl; [exact H|].
      intros x Hx. inversion Hx; subst. assumption.
    + simpl. constructor; [lra|constructor].
Qed.

(** The least and the greatest spin of a list are unique. *)
Lemma is_min_spin_unique entries m1 m2 :
  is_min_spin entries m1 -> is_min_spin entries m2 -> m1 = m2.
Proof.
  intros [Hin1 Hall1] [Hin2 Hall2].
  rewrite Forall_forall in Hall1, Hall2.
  apply list_elem_of_In in Hin1, Hin2.
  specialize (Hall1 _ Hin2). specialize (Hall2 _ Hin1). lra.
Qed.

Lemma is_max_spin_unique entries m1 m2 :
  is_max_spin entries m1 -> is_max_spin entries m2 -> m1 = m2.
Proof.
  intros [Hin1 Hall1] [Hin2 Hall2].
  rewrite Forall_forall in Hall1, Hall2.
  apply list_elem_of_In in Hin1, Hin2.
  specialize (Hall1 _ Hin2). specialize (Hall2 _ Hin1). lra.
Qed.

(** A non-empty list has a first and a last element. *)
Lemma nonempty_first_last {A} (l : list A) :
  l <> [] -> exists x rest init y, l = x :: rest /\ l = init ++ [y].
Proof.
  intros H. destruct l as [|x rest]; [congruence|].
  destruct (exists_last (l := x :: rest)) as (init & y & Heq); [discriminate|].
  now exists x, rest, init, y.
Qed.

(** On a sorted non-empty list the bounds that [interpolate_entry] reads,
    [entries[0]] and [entries[-1]], are the least and the greatest spin. *)
Lemma sorted_bounds entries lo hi :
  sorted_by_spin entries -> is_min_spin entries lo -> is_max_spin entries hi ->
  exists e_first e_last,
    py_getitem entries 0 = ret e_first /\ py_getitem entries (-1) = ret e_last /\
    entry_a e_first = lo /\ entry_a e_last = hi.
Proof.
  intros Hs Hlo Hhi.
  assert (Hne : entries <> []).
  { intros ->. destruct Hlo as [[] _]. }
  destruct (nonempty_first_last entries Hne) as (x & rest & init & y & E1 & E2).
  exists x, y. repeat split.
  - rewrite E1. apply py_getitem_first.
  - rewrite E2. apply py_getitem_last.
  - apply (is_min_spin_unique entries); [|assumption].
    rewrite E1. apply sorted_first_is_min. now rewrite <- E1.
  - apply (is_max_spin_unique entries); [|assumption].
    rewrite E2. apply sorted_last_is_max. now rewrite <- E2.
Qed.

Lemma py_getitem_elem {A} (l : list A) (i : Z) (x : A) :
  py_getitem l i = ret x -> x ∈ l.
Proof.
  unfold py_getitem. cbv zeta.
  destruct (_ <? 0)%Z; [discriminate|].
  destruct (nth_error l _) as [y|] eqn:Hn; [|discriminate].
  intros [= ->]. apply list_elem_of_In. eapply nth_error_In. exact Hn.
Qed.

Lemma py_getitem_0_inv {A} (l : list A) (x : A) :
  py_getitem l 0 = ret x -> nth_error l 0 = Some x.
Proof.
  unfold py_getitem. cbv zeta. change (0 <? 0)%Z with false. cbv iota.
  change (Z.to_nat 0) with 0%nat.
  destruct (nth_error l 0) as [y|]; [|discriminate]. now intros [= ->].
Qed.

(** ** Interpolation between two entries *)

(** A query between the first and the last spin and off the grid is
    answered by the interpolation between two neighbours that enclose it. *)
Lemma interpolate_entry_bracket (qnm_data : gmap mode_key (list entry))
    (k : mode_key) (entries : list entry) (e_first e_last : entry) (a : R) :
  qnm_data !! k = Some entries ->
  off_grid entries a ->
  py_getitem entries 0 = ret e_first ->
  py_getitem entries (-1) = ret e_last ->
  entry_a e_first <= a <= entry_a e_last ->
  exists (i : nat) (lower upper : entry),
    nth_error entries i = Some lower /\
    nth_error entries (S i) = Some upper /\
    entry_a lower < a < entry_a upper /\
    interpolate_entry qnm_data k a = ret (interpolated lower upper a).
Proof.
  intros Hlk Hoff Hfirst Hlast [Hlo Hhi].
  pose proof Hoff as Hoff'. unfold off_grid in Hoff'. rewrite Forall_forall in Hoff'.
  assert (Hex : Exists (fun e => a <= entry_a e) entries).
  { apply Exists_exists. exists e_last. split; [|assumption].
    eapply py_getitem_elem. exact Hlast. }
  destruct (scan_higher_spec entries a 0 Hex) as (n & upper & Hscan & Hup & Hupa & Hbelow).
  assert (Hupper : a < entry_a upper).
  { assert (Hin : upper ∈ entries).
    { apply list_elem_of_In. eapply nth_error_In. exact Hup. }
    specialize (Hoff' upper Hin). apply outside_tol_bounds in Hoff'.
    pose proof tol_pos. lra. }
  destruct n as [|i].
  { exfalso. apply py_getitem_0_inv in Hfirst. rewrite Hfirst in Hup.
    injection Hup as ->. lra. }
  assert (Hlen : (i < length entries)%nat).
  { apply Nat.lt_trans with (S i); [lia|]. apply nth_error_Some. congruence. }
  destruct (nth_error entries i) as [lower|] eqn:Hlow.
  2:{ apply nth_error_None in Hlow. lia. }
  assert (Hlower : entry_a lower < a) by (apply (Hbelow i); [lia|assumption]).
  exists i, lower, upper. repeat split; try assumption.
  unfold interpolate_entry. rewrite Hlk.
  apply exact_match_None in Hoff. rewrite Hoff.
  rewrite Hfirst, bind_ret, Hlast, bind_ret.
  assert (E1 : Rltb a (entry_a e_first) = false) by (apply Rltb_false; lra).
  assert (E2 : Rltb (entry_a e_last) a = false) by (apply Rltb_false; lra).
  rewrite E1, E2. simpl orb. cbv iota.
  rewrite Hscan, bind_ret.
  replace (0 + Z.of_nat (S i) - 1)%Z with (Z.of_nat i) by lia.
  rewrite (py_getitem_nat entries i lower Hlow), bind_ret.
  replace (0 + Z.of_nat (S i))%Z with (Z.of_nat (S i)) by lia.
  rewrite (py_getitem_nat entries (S i) upper Hup), bind_ret.
  unfold py_div.
  assert (E3 : Reqb (entry_a upper - entry_a lower) 0 = false) by (apply Reqb_false; lra).
  rewrite E3, bind_ret. reflexivity.
Qed.

Lemma interpolate_entry_exact (qnm_data : gmap mode_key (list entry))
    (k : mode_key) (entries : list entry) (a : R) (e : entry) :
  qnm_data !! k = Some entries -> exact_match entries a = Some e ->
  interpolate_entry qnm_data k a = ret e.
Proof. intros Hlk Hm. unfold interpolate_entry. now rewrite Hlk, Hm. Qed.

Lemma interpolate_entry_outside (qnm_data : gmap mode_key (list entry))
    (k : mode_key) (entries : list entry) (e_first e_last : entry) (a : R) :
  qnm_data !! k = Some entries ->
  off_grid entries a ->
  py_getitem entries 0 = ret e_first ->
  py_getitem entries (-1) = ret e_last ->
  a < entry_a e_first \/ entry_a e_last < a ->
  interpolate_entry qnm_data k a =
  raise (ValueError_out_of_range a (entry_a e_first) (entry_a e_last) k).
Proof.
  intros Hlk Hoff Hfirst Hlast Hout.
  unfold interpolate_entry. rewrite Hlk.
  apply exact_match_None in Hoff. rewrite Hoff.
  rewrite Hfirst, bind_ret, Hlast, bind_ret.
  destruct Hout as [H|H]; apply Rltb_true in H; rewrite H.
  - reflexivity.
  - now rewrite orb_true_r.
Qed.

(** A mode with an empty list makes [entries[0]] raise. The loader never
    stores such a list. *)
Lemma interpolate_entry_empty_list (qnm_data : gmap mode_key (list entry))
    (k : mode_key) (a : R) :
  qnm_data !! k = Some [] -> interpolate_entry qnm_data k a = raise IndexError.
Proof.
  intros Hlk. unfold interpolate_entry. rewrite Hlk. simpl exact_match.
  now rewrite py_getitem_empty.
Qed.

(** Inside the closed range the interpolator always returns an entry. *)
Lemma interpolate_entry_inside (qnm_data : gmap mode_key (list entry))
    (k : mode_key) (entries : list entry) (e_first e_last : entry) (a : R) :
  qnm_data !! k = Some entries ->
  py_getitem entries 0 = ret e_first ->
  py_getitem entries (-1) = ret e_last ->
  entry_a e_first <= a <= entry_a e_last ->
  exists e, interpolate_entry qnm_data k a = ret e.
Proof.
  intros Hlk Hfirst Hlast Hin.
  destruct (exact_match entries a) as [e|] eqn:Hm.
  - exists e. now apply (interpolate_entry_exact _ _ entries).
  - apply exact_match_None in Hm.
    destruct (interpolate_entry_bracket _ _ _ _ _ _ Hlk Hm Hfirst Hlast Hin)
      as (i & lower & upper & _ & _ & _ & Heq).
    now exists (interpolated lower upper a).
Qed.

(** ** The loaded table *)

Lemma insert_by_spin_perm e entries :
  Permutation (e :: entries) (insert_by_spin e entries).
Proof.
  induction entries as [|x rest IH]; simpl; [reflexivity|].
  destruct (Rltb (entry_a x) (entry_a e)); [|reflexivity].
  rewrite perm_swap. now constructor.
Qed.

Lemma insert_by_spin_hd e x entries :
  spin_le x e -> HdRel spin_le x entries -> HdRel spin_le x (insert_by_spin e entries).
Proof.
  intros Hxe Hhd. destruct entries as [|y rest]; simpl.
  - now constructor.
  - destruct (Rltb (entry_a y) (entry_a e)); constructor; [|assumption].
    now inversion Hhd.
Qed.

Lemma insert_by_spin_sorted e entries :
  sorted_by_spin entries -> sorted_by_spin (insert_by_spin e entries).
Proof.
  unfold sorted_by_spin. induction 1 as [|x rest Hs IH Hhd]; simpl.
  - repeat constructor.
  - destruct (Rltb (entry_a x) (entry_a e)) eqn:Hc.
    + apply Rltb_true in Hc. constructor; [assumption|].
      apply insert_by_spin_hd; [unfold spin_le; lra|assumption].
    + apply Rltb_false in Hc. constructor; [now constructor|].
      now constructor.
Qed.

Lemma sort_by_spin_sorted entries : sorted_by_spin (sort_by_spin entries).
Proof.
  induction entries as [|e rest IH]; simpl.
  - constructor.
  - now apply insert_by_spin_sorted.
Qed.

Lemma sort_by_spin_perm entries : Permutation entries (sort_by_spin entries).
Proof.
  induction entries as [|e rest IH]; simpl; [reflexivity|].
  rewrite <- insert_by_spin_perm. now constructor.
Qed.

Lemma sort_by_spin_nonempty entries : entries <> [] -> sort_by_spin entries <> [].
Proof.
  intros Hne Hs. apply Hne. apply Permutation_nil.
  rewrite <- Hs. symmetry. apply sort_by_spin_perm.
Qed.

(** An entry whose spin is not above any spin of the list is put in front:
    among equal spins the earlier row stays first. *)
Lemma insert_by_spin_sorted_head e entries :
  Forall (fun x => entry_a e <= entry_a x) entries ->
  insert_by_spin e entries = e :: entries.
Proof.
  intros H. destruct entries as [|x rest]; simpl; [reflexivity|].
  inversion H as [|? ? Hx _]; subst.
  apply Rltb_false in Hx. now rewrite Hx.
Qed.

Lemma append_row_nonempty (qnm_data : gmap mode_key (list entry)) (r : row) :
  map_Forall (fun _ entries => entries <> []) qnm_data ->
  map_Forall (fun _ entries => entries <> []) (append_row qnm_data r).
Proof.
  intros H. unfold append_row. apply map_Forall_insert_2; [|assumption].
  intros Happ. apply app_eq_nil in Happ as [_ Hnil]. discriminate.
Qed.

Lemma foldl_append_row_nonempty (rows : list row) (qnm_data : gmap mode_key (list entry)) :
  map_Forall (fun _ entries => entries <> []) qnm_data ->
  map_Forall (fun _ entries => entries <> []) (foldl append_row qnm_data rows).
Proof.
  revert qnm_data. induction rows as [|r rows IH]; intros qnm_data H; simpl.
  - assumption.
  - apply IH. now apply append_row_nonempty.
Qed.

(** Every mode of a loaded table has a non-empty list of entries, ascending
    in the spin. *)
Lemma load_QNM_templates_ok (rows : list row) : store_ok (load_QNM_templates rows).
Proof.
  unfold store_ok, load_QNM_templates. intros k entries Hlk.
  rewrite lookup_fmap in Hlk.
  destruct (foldl append_row ∅ rows !! k) as [raw|] eqn:Hraw; [|discriminate].
  injection Hlk as <-. split.
  - apply sort_by_spin_nonempty.
    eapply (foldl_append_row_nonempty rows ∅); [|exact Hraw].
    apply map_Forall_empty.
  - apply sort_by_spin_sorted.
Qed.

(** The scenario table is what the loader builds from its two rows. *)
Lemma load_table_20 : load_QNM_templates [row_0; row_1] = table_20.
Proof.
  unfold load_QNM_templates, table_20. simpl foldl. unfold append_row.
  change (row_l row_0, row_n row_0) with (2%Z, 0%Z).
  change (row_l row_1, row_n row_1) with (2%Z, 0%Z).
  rewrite lookup_empty. simpl default.
  rewrite lookup_insert_eq. simpl default.
  rewrite insert_insert_eq, insert_empty, map_fmap_singleton.
  f_equal.
  change (insert_by_spin entry_0 [entry_1] = [entry_0; entry_1]).
  rewrite insert_by_spin_sorted_head; [reflexivity|].
  apply Forall_cons_2; [simpl; lra|apply Forall_nil_2].
Qed.

(** ** The time grid *)

Lemma np_arange_time_grid (duration dt : R) :
  dt <> 0 -> np_arange 0 duration dt = ret (time_grid duration dt).
Proof.
  intros Hdt. unfold np_arange, py_div.
  apply Reqb_false in Hdt. rewrite Hdt, bind_ret.
  unfold time_grid. rewrite Rminus_0_r. f_equal.
  apply map_ext. intros i. lra.
Qed.

Lemma np_arange_zero_step (duration : R) :
  np_arange 0 duration 0 = raise ZeroDivisionError.
Proof.
  unfold np_arange, py_div.
  assert (E : Reqb 0 0 = true) by now apply Reqb_true.
  now rewrite E.
Qed.

Lemma time_grid_length (duration dt : R) :
  length (time_grid duration dt) = Z.to_nat (Zceil (duration / dt)).
Proof. unfold time_grid. now rewrite length_map, length_seq. Qed.

Lemma time_grid_lookup (duration dt : R) (i : nat) :
  (i < Z.to_nat (Zceil (duration / dt)))%nat ->
  time_grid duration dt !! i = Some (INR i * dt).
Proof.
  intros Hi. unfold time_grid.
  rewrite list_lookup_fmap, lookup_seq_lt by assumption. reflexivity.
Qed.

(** ** The loop over the modes *)

(** The accumulator after the modes whose frequencies are [omegas]. *)
Lemma modes_loop_ok (qnm_data : gmap mode_key (list entry)) (spin eps : R)
    (modes : list mode_key) (omegas : list complex) (t h_total : list R) :
  frequencies_of qnm_data spin eps modes omegas ->
  modes_loop qnm_data spin eps modes t h_total =
  ret (foldl (fun h omega => zip_with Rplus h (h_mode omega t)) h_total omegas).
Proof.
  intros H. revert h_total.
  induction H as [|[l n] omega modes omegas Hf _ IH]; intros h_total; simpl.
  - reflexivity.
  - simpl in Hf. rewrite Hf, bind_ret. apply IH.
Qed.

Lemma modes_loop_inv (qnm_data : gmap mode_key (list entry)) (spin eps : R)
    (modes : list mode_key) (t h_total h : list R) :
  modes_loop qnm_data spin eps modes t h_total = inr h ->
  exists omegas, frequencies_of qnm_data spin eps modes omegas.
Proof.
  revert h_total. induction modes as [|[l n] rest IH]; intros h_total; simpl.
  - intros _. exists []. constructor.
  - intros H. apply bind_inr_inv in H as (omega & Hf & Hrest).
    destruct (IH _ Hrest) as (omegas & Hall).
    exists (omega :: omegas). now constructor.
Qed.

(** The first mode whose lookup raises ends the loop with that exception. *)
Lemma modes_loop_raise (qnm_data : gmap mode_key (list entry)) (spin eps : R)
    (pre post : list mode_key) (k : mode_key) (omegas : list complex)
    (e : exception) (t h_total : list R) :
  frequencies_of qnm_data spin eps pre omegas ->
  get_frequency qnm_data spin (fst k) (snd k) eps = inl e ->
  modes_loop qnm_data spin eps (pre ++ k :: post) t h_total = inl e.
Proof.
  intros H Hk. revert h_total.
  induction H as [|[l n] omega pre omegas Hf _ IH]; intros h_total; simpl.
  - destruct k as [l n]. simpl in Hk. now rewrite Hk.
  - simpl in Hf. rewrite Hf, bind_ret. apply IH.
Qed.

Lemma h_mode_length (omega : complex) (t : list R) : length (h_mode omega t) = length t.
Proof. unfold h_mode. apply length_map. Qed.

Lemma h_mode_lookup (omega : complex) (t : list R) (i : nat) (ti : R) :
  t !! i = Some ti ->
  h_mode omega t !! i = Some (1 * exp (imag omega * ti) * cos (real omega * ti)).
Proof. intros H. unfold h_mode. now rewrite list_lookup_fmap, H. Qed.

Lemma foldl_h_mode_length (omegas : list complex) (t h_total : list R) :
  length h_total = length t ->
  length (foldl (fun h omega => zip_with Rplus h (h_mode omega t)) h_total omegas) = length t.
Proof.
  revert h_total. induction omegas as [|omega omegas IH]; intros h_total H; simpl.
  - assumption.
  - apply IH. rewrite length_zip_with, h_mode_length, H. lia.
Qed.

(** At every grid point the accumulator grows by the sum of the modes'
    terms at that point. *)
Lemma foldl_h_mode_lookup (omegas : list complex) (t h_total : list R)
    (i : nat) (ti x : R) :
  t !! i = Some ti -> h_total !! i = Some x ->
  foldl (fun h omega => zip_with Rplus h (h_mode omega t)) h_total omegas !! i =
  Some (x + Rsum (map (fun omega => 1 * exp (imag omega * ti) * cos (real omega * ti)) omegas)).
Proof.
  intros Ht. revert h_total x.
  induction omegas as [|omega omegas IH]; intros h_total x Hx; simpl.
  - rewrite Hx. f_equal. lra.
  - erewrite IH.
    2:{ rewrite lookup_zip_with, Hx. simpl. rewrite (h_mode_lookup _ _ _ _ Ht).
        simpl. reflexivity. }
    f_equal. lra.
Qed.

Lemma np_zeros_like_lookup (t : list R) (i : nat) (ti : R) :
  t !! i = Some ti -> np_zeros_like t !! i = Some 0.
Proof. intros H. unfold np_zeros_like. now rewrite list_lookup_fmap, H. Qed.

(** The whole of [generate_waveform] when every lookup succeeds. *)
Lemma generate_waveform_ok (qnm_data : gmap mode_key (list entry))
    (mass spin eps : R) (modes : list mode_key) (omegas : list complex)
    (duration dt : R) :
  dt <> 0 ->
  frequencies_of qnm_data spin eps modes omegas ->
  generate_waveform qnm_data mass spin eps modes duration dt =
  ret (time_grid duration dt,
       foldl (fun h omega => zip_with Rplus h (h_mode omega (time_grid duration dt)))
             (np_zeros_like (time_grid duration dt)) omegas).
Proof.
  intros Hdt H. unfold generate_waveform.
  rewrite (np_arange_time_grid _ _ Hdt), bind_ret.
  now rewrite (modes_loop_ok _ _ _ _ _ _ _ H), bind_ret.
Qed.

Lemma generate_waveform_inv (qnm_data : gmap mode_key (list entry))
    (mass spin eps : R) (modes : list mode_key) (duration dt : R)
    (t h : list R) :
  generate_waveform qnm_data mass spin eps modes duration dt = inr (t, h) ->
  dt <> 0 /\ exists omegas, frequencies_of qnm_data spin eps modes omegas.
Proof.
  intros H. unfold generate_waveform in H.
  apply bind_inr_inv in H as (t' & Ht & H).
  apply bind_inr_inv in H as (h' & Hh & _).
  split.
  - intros ->. rewrite np_arange_zero_step in Ht. discriminate.
  - eapply modes_loop_inv. exact Hh.
Qed.

(** ** The scenario table *)

Lemma table_20_lookup : table_20 !! (2%Z, 0%Z) = Some [entry_0; entry_1].
Proof. apply lookup_singleton_eq. Qed.

Lemma table_20_ok : store_ok table_20.
Proof. rewrite <- load_table_20. apply load_QNM_templates_ok. Qed.

Lemma table_20_sorted : sorted_by_spin [entry_0; entry_1].
Proof. exact (proj2 (table_20_ok _ _ table_20_lookup)). Qed.

Lemma table_20_min : is_min_spin [entry_0; entry_1] 0.
Proof.
  split; [now left|]. simpl.
  apply Forall_cons_2; [lra|]. apply Forall_cons_2; [lra|]. apply Forall_nil_2.
Qed.

Lemma table_20_max : is_max_spin [entry_0; entry_1] 1.
Proof.
  split; [right; now left|]. simpl.
  apply Forall_cons_2; [lra|]. apply Forall_cons_2; [lra|]. apply Forall_nil_2.
Qed.

(** A spin at least [tol] away from both 0 and 1 is off the grid of the
    scenario table. *)
Lemma table_20_off_grid (a : R) :
  (a <= - tol \/ tol <= a) -> (a <= 1 - tol \/ 1 + tol <= a) ->
  off_grid [entry_0; entry_1] a.
Proof.
  intros H0 H1.
  apply off_grid_cons; [simpl; lra|]. apply off_grid_cons; [simpl; lra|].
  apply off_grid_nil.
Qed.

(** * The claims *)

(** ** C1: queries outside the tabulated range *)

(** C1, at a concrete input: on the scenario table the query 1.0000005 is
    strictly above the greatest stored spin 1.0, and yet it is within the
    tolerance of that spin, so the exact-match scan answers it with the
    stored entry instead of the out-of-range failure. *)
Lemma interpolate_entry_just_outside_succeeds :
  table_20 !! (2%Z, 0%Z) = Some [entry_0; entry_1] /\
  is_min_spin [entry_0; entry_1] 0 /\ is_max_spin [entry_0; entry_1] 1 /\
  1 < 1.0000005 /\
  interpolate_entry table_20 (2%Z, 0%Z) 1.0000005 = inr entry_1.
Proof.
  split; [apply table_20_lookup|].
  split; [apply table_20_min|].
  split; [apply table_20_max|].
  split; [lra|].
  apply (interpolate_entry_exact _ _ [entry_0; entry_1]); [apply table_20_lookup|].
  apply (exact_match_first [entry_0] entry_1 []).
  - apply off_grid_cons; [unfold tol; simpl; lra|apply off_grid_nil].
  - apply within_tol_bounds. unfold tol. simpl. lra.
Qed.

(** C1, amended: for a mode whose entries are sorted ascending with least
    spin [lo] and greatest spin [hi], a query strictly outside [[lo, hi]]
    that is not within 1e-6 of a stored spin fails with the out-of-range
    error carrying [lo] and [hi]; this covers every query at least 1e-6
    below [lo] or above [hi]. A query within 1e-6 of a stored spin, inside
    the range or not, is answered with a stored entry; so a query exactly
    at [lo] or at [hi] succeeds.
    On the scenario table, [get_frequency] at spin 1.5 fails with the
    bounds 0.0 and 1.0. *)
Theorem interpolate_entry_out_of_range
    (qnm_data : gmap mode_key (list entry)) (k : mode_key)
    (entries : list entry) (lo hi : R) :
  qnm_data !! k = Some entries ->
  sorted_by_spin entries ->
  is_min_spin entries lo ->
  is_max_spin entries hi ->
  (forall a : R, (a < lo \/ hi < a) -> off_grid entries a ->
     interpolate_entry qnm_data k a = inl (ValueError_out_of_range a lo hi k)) /\
  (forall d : R, tol <= d ->
     interpolate_entry qnm_data k (lo - d) =
       inl (ValueError_out_of_range (lo - d) lo hi k) /\
     interpolate_entry qnm_data k (hi + d) =
       inl (ValueError_out_of_range (hi + d) lo hi k)) /\
  (forall a : R, Exists (fun e => Rabs (entry_a e - a) < tol) entries ->
     exists e, e ∈ entries /\ interpolate_entry qnm_data k a = inr e) /\
  (exists e, interpolate_entry qnm_data k lo = inr e) /\
  (exists e, interpolate_entry qnm_data k hi = inr e) /\
  get_frequency table_20 1.5 2 0 0 = inl (ValueError_out_of_range 1.5 0 1 (2%Z, 0%Z)).
Proof.
  intros Hlk Hs Hlo Hhi.
  destruct (sorted_bounds entries lo hi Hs Hlo Hhi)
    as (e_first & e_last & Hfirst & Hlast & <- & <-).
  assert (Hle : entry_a e_first <= entry_a e_last).
  { destruct Hlo as [Hin _]. destruct Hhi as [_ Hall].
    rewrite Forall_forall in Hall. apply Hall. now apply list_elem_of_In. }
  assert (Hout : forall a, a < entry_a e_first \/ entry_a e_last < a ->
            off_grid entries a ->
            interpolate_entry qnm_data k a =
            inl (ValueError_out_of_range a (entry_a e_first) (entry_a e_last) k)).
  { intros a Ha Hoff. now apply (interpolate_entry_outside _ _ entries). }
  assert (Hspins : forall e, e ∈ entries -> entry_a e_first <= entry_a e <= entry_a e_last).
  { intros e He. destruct Hlo as [_ Hall1]. destruct Hhi as [_ Hall2].
    rewrite Forall_forall in Hall1, Hall2.
    assert (entry_a e ∈ map entry_a entries) by now apply list_elem_of_fmap_2.
    split; [now apply Hall1|now apply Hall2]. }
  pose proof tol_pos as Htol.
  split; [exact Hout|]. split; [|split; [|split; [|split]]].
  - intros d Hd. split; apply Hout; try lra.
    + apply Forall_forall. intros e He. apply outside_tol_bounds.
      pose proof (Hspins e He). lra.
    + apply Forall_forall. intros e He. apply outside_tol_bounds.
      pose proof (Hspins e He). lra.
  - intros a Hex. destruct (exact_match_exists entries a Hex) as (e & Hm).
    exists e. split.
    + destruct (exact_match_Some entries a e Hm) as (pre & post & -> & _).
      apply elem_of_app. right. left.
    + now apply (interpolate_entry_exact _ _ entries).
  - apply (interpolate_entry_inside _ _ entries e_first e_last); try assumption. lra.
  - apply (interpolate_entry_inside _ _ entries e_first e_last); try assumption. lra.
  - unfold get_frequency. rewrite table_20_lookup.
    rewrite (interpolate_entry_outside _ _ [entry_0; entry_1] entry_0 entry_1).
    + reflexivity.
    + apply table_20_lookup.
    + apply table_20_off_grid; unfold tol; lra.
    + reflexivity.
    + reflexivity.
    + right. simpl. lra.
Qed.

(** The theorem applied to the scenario table and the query 1.5. *)
Lemma interpolate_entry_out_of_range_witness :
  interpolate_entry table_20 (2%Z, 0%Z) 1.5 =
  inl (ValueError_out_of_range 1.5 0 1 (2%Z, 0%Z)).
Proof.
  apply (interpolate_entry_out_of_range table_20 (2%Z, 0%Z) [entry_0; entry_1] 0 1
           table_20_lookup table_20_sorted table_20_min table_20_max).
  - right. lra.
  - apply table_20_off_grid; unfold tol; lra.
Defined.

(** ** C2: linear interpolation between the enclosing neighbours *)

(** C2: for a mode whose entries are sorted ascending, a query strictly
    inside the range of the stored spins and not within 1e-6 of any of them
    is answered from two consecutive entries [lower] and [upper] with
    [lower.spin <= a <= upper.spin]: every numeric field is
    [lower.value + frac * (upper.value - lower.value)] with
    [frac = (a - lower.spin) / (upper.spin - lower.spin)], and the spin of
    the answer is the query. On the scenario table [get_frequency] at spin
    0.5 and eps 0 is 0.55 - 0.09i. *)
Theorem interpolate_entry_linear
    (qnm_data : gmap mode_key (list entry)) (k : mode_key)
    (entries : list entry) (lo hi a : R) :
  qnm_data !! k = Some entries ->
  sorted_by_spin entries ->
  is_min_spin entries lo ->
  is_max_spin entries hi ->
  lo < a < hi ->
  off_grid entries a ->
  (exists (i : nat) (lower upper : entry) (frac : R),
     entries !! i = Some lower /\
     entries !! S i = Some upper /\
     entry_a lower <= a <= entry_a upper /\
     frac = (a - entry_a lower) / (entry_a upper - entry_a lower) /\
     interpolate_entry qnm_data k a = inr
       {| entry_a := a;
          entry_omega0_R := entry_omega0_R lower + frac * (entry_omega0_R upper - entry_omega0_R lower);
          entry_omega0_I := entry_omega0_I lower + frac * (entry_omega0_I upper - entry_omega0_I lower);
          entry_alpha1 := entry_alpha1 lower + frac * (entry_alpha1 upper - entry_alpha1 lower);
          entry_alpha2 := entry_alpha2 lower + frac * (entry_alpha2 upper - entry_alpha2 lower);
          entry_beta1 := entry_beta1 lower + frac * (entry_beta1 upper - entry_beta1 lower);
          entry_beta2 := entry_beta2 lower + frac * (entry_beta2 upper - entry_beta2 lower) |}) /\
  get_frequency table_20 0.5 2 0 0 = inr (Complex 0.55 (-0.09)).
Proof.
  intros Hlk Hs Hlo Hhi Ha Hoff. split.
  - destruct (sorted_bounds entries lo hi Hs Hlo Hhi)
      as (e_first & e_last & Hfirst & Hlast & <- & <-).
    destruct (interpolate_entry_bracket qnm_data k entries e_first e_last a)
      as (i & lower & upper & Hlow & Hup & Hbr & Heq); try assumption; [lra|].
    exists i, lower, upper, ((a - entry_a lower) / (entry_a upper - entry_a lower)).
    rewrite <- !nth_error_list_lookup.
    repeat split; try assumption; try lra.
  - unfold get_frequency. rewrite table_20_lookup.
    destruct (interpolate_entry_bracket table_20 (2%Z, 0%Z) [entry_0; entry_1]
                entry_0 entry_1 0.5)
      as (i & lower & upper & Hlow & Hup & Hbr & Heq).
    + apply table_20_lookup.
    + apply table_20_off_grid; unfold tol; lra.
    + reflexivity.
    + reflexivity.
    + simpl. lra.
    + destruct i as [|[|i]]; simpl in Hlow, Hup; try discriminate.
      injection Hlow as <-. injection Hup as <-.
      rewrite Heq, bind_ret. cbv zeta. simpl.
      rewrite !Rminus_0_r. unfold ret. f_equal. f_equal; lra.
Qed.

(** The theorem applied to the scenario table and the query 0.5. *)
Lemma interpolate_entry_linear_witness :
  exists (i : nat) (lower upper : entry) (frac : R),
    [entry_0; entry_1] !! i = Some lower /\
    [entry_0; entry_1] !! S i = Some upper /\
    entry_a lower <= 0.5 <= entry_a upper /\
    frac = (0.5 - entry_a lower) / (entry_a upper - entry_a lower) /\
    interpolate_entry table_20 (2%Z, 0%Z) 0.5 = inr
      {| entry_a := 0.5;
         entry_omega0_R := entry_omega0_R lower + frac * (entry_omega0_R upper - entry_omega0_R lower);
         entry_omega0_I := entry_omega0_I lower + frac * (entry_omega0_I upper - entry_omega0_I lower);
         entry_alpha1 := entry_alpha1 lower + frac * (entry_alpha1 upper - entry_alpha1 lower);
         entry_alpha2 := entry_alpha2 lower + frac * (entry_alpha2 upper - entry_alpha2 lower);
         entry_beta1 := entry_beta1 lower + frac * (entry_beta1 upper - entry_beta1 lower);
         entry_beta2 := entry_beta2 lower + frac * (entry_beta2 upper - entry_beta2 lower) |}.
Proof.
  apply (interpolate_entry_linear table_20 (2%Z, 0%Z) [entry_0; entry_1] 0 1 0.5
           table_20_lookup table_20_sorted table_20_min table_20_max).
  - lra.
  - apply table_20_off_grid; unfold tol; lra.
Defined.

(** ** C3: the perturbative frequency *)

(** The frequency is read off the entry the interpolator returns. *)
Lemma get_frequency_of_entry (qnm_data : gmap mode_key (list entry))
    (l n : Z) (a eps : R) (e : entry) :
  interpolate_entry qnm_data (l, n) a = inr e ->
  get_frequency qnm_data a l n eps = inr
    (Complex (entry_omega0_R e + (entry_alpha1 e * eps + entry_alpha2 e * eps ^ 2))
             (entry_omega0_I e + (entry_beta1 e * eps + entry_beta2 e * eps ^ 2))).
Proof.
  intros He. unfold get_frequency.
  destruct (qnm_data !! (l, n)) as [entries|] eqn:Hlk.
  - now rewrite He.
  - unfold interpolate_entry in He. rewrite Hlk in He. discriminate.
Qed.



(** ** C4: the exact-match scan *)

Lemma table_near_lookup :
  table_near !! (2%Z, 0%Z) = Some [entry_near_lo; entry_near_hi].
Proof. apply lookup_singleton_eq. Qed.

(** C4, at a concrete input: the table stores, strictly ascending, the
    spins 0.5 and 0.5000005. The query at the stored spin 0.5000005 returns
    the entry stored at 0.5, whose fields differ from those stored at the
    queried spin by far more than 1e-9. *)
Lemma interpolate_entry_stored_spin_other_entry :
  table_near !! (2%Z, 0%Z) = Some [entry_near_lo; entry_near_hi] /\
  entry_a entry_near_lo < entry_a entry_near_hi /\
  interpolate_entry table_near (2%Z, 0%Z) (entry_a entry_near_hi) = inr entry_near_lo /\
  1e-9 < Rabs (entry_omega0_R entry_near_lo - entry_omega0_R entry_near_hi).
Proof.
  split; [apply table_near_lookup|].
  split; [simpl; lra|]. split.
  - apply (interpolate_entry_exact _ _ [entry_near_lo; entry_near_hi]);
      [apply table_near_lookup|].
    apply (exact_match_first [] entry_near_lo [entry_near_hi]);
      [apply off_grid_nil|].
    apply within_tol_bounds. unfold tol. simpl. lra.
  - simpl. unfold Rabs. destruct (Rcase_abs (1 - 2)); lra.
Qed.

(** C4, amended: the interpolator returns, verbatim, the first entry in
    stored order whose spin is within 1e-6 of the query, whenever there is
    one. Hence the query at the spin of a stored entry returns that entry
    itself when no entry stored before it is within 1e-6 of that spin. *)
Theorem interpolate_entry_first_match
    (qnm_data : gmap mode_key (list entry)) (k : mode_key)
    (entries : list entry) :
  qnm_data !! k = Some entries ->
  (forall (a : R) (pre post : list entry) (e : entry),
     entries = pre ++ e :: post -> off_grid pre a -> Rabs (entry_a e - a) < tol ->
     interpolate_entry qnm_data k a = inr e) /\
  (forall (pre post : list entry) (e : entry),
     entries = pre ++ e :: post -> off_grid pre (entry_a e) ->
     interpolate_entry qnm_data k (entry_a e) = inr e) /\
  (forall a : R,
     Exists (fun e => Rabs (entry_a e - a) < tol) entries ->
     exists e, e ∈ entries /\ Rabs (entry_a e - a) < tol /\
               interpolate_entry qnm_data k a = inr e).
Proof.
  intros Hlk.
  assert (H1 : forall (a : R) (pre post : list entry) (e : entry),
     entries = pre ++ e :: post -> off_grid pre a -> Rabs (entry_a e - a) < tol ->
     interpolate_entry qnm_data k a = inr e).
  { intros a pre post e -> Hpre He.
    apply (interpolate_entry_exact _ _ (pre ++ e :: post)); [assumption|].
    now apply exact_match_first. }
  split; [exact H1|]. split.
  - intros pre post e Heq Hpre. apply (H1 _ pre post); try assumption.
    rewrite Rminus_diag, Rabs_R0. apply tol_pos.
  - intros a Hex. destruct (exact_match_exists entries a Hex) as (e & Hm).
    destruct (exact_match_Some entries a e Hm) as (pre & post & Heq & Hpre & He).
    exists e. split; [|split].
    + rewrite Heq. apply elem_of_app. right. left.
    + exact He.
    + now apply (H1 a pre post).
Qed.

(** The theorem applied to the scenario table at the stored spin 1.0. *)
Lemma interpolate_entry_first_match_witness :
  interpolate_entry table_20 (2%Z, 0%Z) (entry_a entry_1) = inr entry_1.
Proof.
  apply (proj1 (proj2 (interpolate_entry_first_match table_20 (2%Z, 0%Z)
                         [entry_0; entry_1] table_20_lookup))
           [entry_0] [] entry_1).
  - reflexivity.
  - apply off_grid_cons; [unfold tol; simpl; lra|apply off_grid_nil].
Defined.

(** ** The synthesiser on the scenario table *)

Lemma frequencies_of_succeeds (qnm_data : gmap mode_key (list entry)) (spin eps : R)
    (modes : list mode_key) :
  Forall (lookup_succeeds qnm_data spin eps) modes <->
  exists omegas, frequencies_of qnm_data spin eps modes omegas.
Proof.
  split.
  - induction 1 as [|k modes [omega Hk] _ [omegas IH]].
    + exists []. constructor.
    + exists (omega :: omegas). now constructor.
  - intros [omegas H]. induction H as [|k omega modes omegas Hk _ IH].
    + apply Forall_nil_2.
    + apply Forall_cons_2; [now exists omega|exact IH].
Qed.

Lemma table_20_omega_20 : get_frequency table_20 0 2 0 0 = inr omega_20.
Proof.
  apply (get_frequency_of_entry table_20 2 0 0 0 entry_0).
  apply (interpolate_entry_exact _ _ [entry_0; entry_1]); [apply table_20_lookup|].
  apply (exact_match_first [] entry_0 [entry_1]); [apply off_grid_nil|].
  apply within_tol_bounds. unfold tol. simpl. lra.
Qed.

Lemma table_20_frequencies (modes : list mode_key) :
  Forall (fun k => k = (2%Z, 0%Z)) modes ->
  frequencies_of table_20 0 0 modes (map (fun _ => omega_20) modes).
Proof.
  induction 1 as [|k modes -> _ IH]; simpl.
  - constructor.
  - constructor; [exact table_20_omega_20|exact IH].
Qed.

(** [0.0 + x] is [x]: the first mode's term is the accumulator after it. *)
Lemma zeros_plus_h_mode (omega : complex) (t : list R) :
  zip_with Rplus (np_zeros_like t) (h_mode omega t) = h_mode omega t.
Proof.
  unfold np_zeros_like, h_mode. induction t as [|ti t IH]; simpl.
  - reflexivity.
  - f_equal; [lra|exact IH].
Qed.

(** The waveform of the single mode [(2, 0)] on the scenario table, over
    two seconds in steps of one. *)
Lemma table_20_waveform :
  generate_waveform table_20 1 0 0 [(2%Z, 0%Z)] 2 1 =
  inr (time_grid 2 1, h_mode omega_20 (time_grid 2 1)).
Proof.
  rewrite (generate_waveform_ok table_20 1 0 0 [(2%Z, 0%Z)] [omega_20] 2 1).
  - simpl foldl. now rewrite zeros_plus_h_mode.
  - lra.
  - apply (table_20_frequencies [(2%Z, 0%Z)]). apply Forall_cons_2; [reflexivity|apply Forall_nil_2].
Qed.

(** ** C5: superposition *)

(** C5: when the syntheses of the single modes [A] and [B] succeed, they
    are on the same time grid and the synthesis of [[A, B]] succeeds on that
    grid with the elementwise sum of the two strains; conversely a
    successful synthesis of [[A, B]] is the elementwise sum of the two
    single-mode syntheses, which then succeed. No term couples the modes. *)
Theorem generate_waveform_superposition
    (qnm_data : gmap mode_key (list entry)) (mass spin eps : R)
    (A B : mode_key) (duration dt : R) :
  (forall tA hA tB hB : list R,
     generate_waveform qnm_data mass spin eps [A] duration dt = inr (tA, hA) ->
     generate_waveform qnm_data mass spin eps [B] duration dt = inr (tB, hB) ->
     tA = tB /\
     generate_waveform qnm_data mass spin eps [A; B] duration dt =
       inr (tA, zip_with Rplus hA hB)) /\
  (forall t h : list R,
     generate_waveform qnm_data mass spin eps [A; B] duration dt = inr (t, h) ->
     exists hA hB : list R,
       generate_waveform qnm_data mass spin eps [A] duration dt = inr (t, hA) /\
       generate_waveform qnm_data mass spin eps [B] duration dt = inr (t, hB) /\
       h = zip_with Rplus hA hB).
Proof.
  split.
  - intros tA hA tB hB HA HB.
    destruct (generate_waveform_inv _ _ _ _ _ _ _ _ _ HA) as (Hdt & omegasA & HfA).
    destruct (generate_waveform_inv _ _ _ _ _ _ _ _ _ HB) as (_ & omegasB & HfB).
    inversion HfA as [|? omegaA ? ? HwA HnilA]; subst. inversion HnilA; subst.
    inversion HfB as [|? omegaB ? ? HwB HnilB]; subst. inversion HnilB; subst.
    rewrite (generate_waveform_ok _ mass _ _ _ _ duration dt Hdt HfA) in HA.
    rewrite (generate_waveform_ok _ mass _ _ _ _ duration dt Hdt HfB) in HB.
    simpl foldl in HA, HB. rewrite zeros_plus_h_mode in HA, HB.
    injection HA as <- <-. injection HB as <- <-.
    split; [reflexivity|].
    rewrite (generate_waveform_ok _ mass _ _ [A; B] [omegaA; omegaB] duration dt Hdt).
    + simpl foldl. now rewrite zeros_plus_h_mode.
    + constructor; [assumption|]. constructor; [assumption|constructor].
  - intros t h HAB.
    destruct (generate_waveform_inv _ _ _ _ _ _ _ _ _ HAB) as (Hdt & omegas & Hf).
    inversion Hf as [|? omegaA ? ? HwA Hrest]; subst.
    inversion Hrest as [|? omegaB ? ? HwB Hnil]; subst. inversion Hnil; subst.
    rewrite (generate_waveform_ok _ mass _ _ _ _ duration dt Hdt Hf) in HAB.
    simpl foldl in HAB. rewrite zeros_plus_h_mode in HAB. injection HAB as <- <-.
    exists (h_mode omegaA (time_grid duration dt)), (h_mode omegaB (time_grid duration dt)).
    split; [|split; [|reflexivity]].
    + rewrite (generate_waveform_ok _ mass _ _ [A] [omegaA] duration dt Hdt).
      * simpl foldl. now rewrite zeros_plus_h_mode.
      * constructor; [assumption|constructor].
    + rewrite (generate_waveform_ok _ mass _ _ [B] [omegaB] duration dt Hdt).
      * simpl foldl. now rewrite zeros_plus_h_mode.
      * constructor; [assumption|constructor].
Qed.

(** The theorem applied to the scenario table, the mode [(2, 0)] taken
    twice. *)
Lemma generate_waveform_superposition_witness :
  time_grid 2 1 = time_grid 2 1 /\
  generate_waveform table_20 1 0 0 [(2%Z, 0%Z); (2%Z, 0%Z)] 2 1 =
  inr (time_grid 2 1,
       zip_with Rplus (h_mode omega_20 (time_grid 2 1)) (h_mode omega_20 (time_grid 2 1))).
Proof.
  exact (proj1 (generate_waveform_superposition table_20 1 0 0 (2%Z, 0%Z) (2%Z, 0%Z) 2 1)
           _ _ _ _ table_20_waveform table_20_waveform).
Defined.

(** ** C6: the contribution of a mode *)

Lemma generate_waveform_frequencies (qnm_data : gmap mode_key (list entry))
    (mass spin eps : R) (modes : list mode_key) (duration dt : R) (t h : list R) :
  generate_waveform qnm_data mass spin eps modes duration dt = inr (t, h) ->
  exists omegas,
    frequencies_of qnm_data spin eps modes omegas /\
    dt <> 0 /\ t = time_grid duration dt /\
    h = foldl (fun h omega => zip_with Rplus h (h_mode omega t)) (np_zeros_like t) omegas.
Proof.
  intros H.
  destruct (generate_waveform_inv _ _ _ _ _ _ _ _ _ H) as (Hdt & omegas & Hf).
  rewrite (generate_waveform_ok _ mass _ _ _ _ duration dt Hdt Hf) in H.
  injection H as <- <-. now exists omegas.
Qed.

(** C6: in a successful synthesis every requested mode has a frequency
    [omega], and the strain at each grid point [ti] is the sum over the
    requested modes of [1 * exp(omega_imag * ti) * cos(omega_real * ti)]:
    unit amplitude, zero phase. With a single mode and a non-empty grid the
    first grid point is 0 and the strain there is exactly 1. *)
Theorem generate_waveform_contributions
    (qnm_data : gmap mode_key (list entry)) (mass spin eps : R)
    (modes : list mode_key) (duration dt : R) (t h : list R) :
  generate_waveform qnm_data mass spin eps modes duration dt = inr (t, h) ->
  exists omegas : list complex,
    frequencies_of qnm_data spin eps modes omegas /\
    length h = length t /\
    (forall (i : nat) (ti : R), t !! i = Some ti ->
       h !! i = Some (Rsum (map (fun omega =>
                  1 * exp (imag omega * ti) * cos (real omega * ti)) omegas))) /\
    (forall k : mode_key, modes = [k] -> t <> [] ->
       t !! 0%nat = Some 0 /\ h !! 0%nat = Some 1).
Proof.
  intros H.
  destruct (generate_waveform_frequencies _ _ _ _ _ _ _ _ _ H)
    as (omegas & Hf & Hdt & Ht & Hh).
  assert (Hpoint : forall (i : nat) (ti : R), t !! i = Some ti ->
       h !! i = Some (Rsum (map (fun omega =>
                  1 * exp (imag omega * ti) * cos (real omega * ti)) omegas))).
  { intros i ti Hi. rewrite Hh.
    rewrite (foldl_h_mode_lookup omegas t (np_zeros_like t) i ti 0 Hi
               (np_zeros_like_lookup t i ti Hi)).
    f_equal. lra. }
  exists omegas. split; [exact Hf|]. split; [|split; [exact Hpoint|]].
  - rewrite Hh. apply foldl_h_mode_length. unfold np_zeros_like. apply length_map.
  - intros k -> Hne.
    assert (H0 : t !! 0%nat = Some 0).
    { destruct t as [|t0 t']; [congruence|].
      unfold time_grid in Ht. destruct (Z.to_nat _); [discriminate|].
      simpl in Ht. injection Ht as -> _. simpl. f_equal. lra. }
    split; [exact H0|].
    rewrite (Hpoint 0%nat 0 H0).
    inversion Hf as [|? omega ? ? _ Hnil]; subst. inversion Hnil; subst.
    unfold Rsum. simpl. rewrite !Rmult_0_r, exp_0, cos_0. f_equal. lra.
Qed.

(** The theorem applied to the single-mode waveform of the scenario
    table. *)
Lemma generate_waveform_contributions_witness :
  exists omegas : list complex,
    frequencies_of table_20 0 0 [(2%Z, 0%Z)] omegas /\
    length (h_mode omega_20 (time_grid 2 1)) = length (time_grid 2 1) /\
    (forall (i : nat) (ti : R), time_grid 2 1 !! i = Some ti ->
       h_mode omega_20 (time_grid 2 1) !! i =
       Some (Rsum (map (fun omega =>
               1 * exp (imag omega * ti) * cos (real omega * ti)) omegas))) /\
    (forall k : mode_key, [(2%Z, 0%Z)] = [k] -> time_grid 2 1 <> [] ->
       time_grid 2 1 !! 0%nat = Some 0 /\
       h_mode omega_20 (time_grid 2 1) !! 0%nat = Some 1).
Proof.
  exact (generate_waveform_contributions table_20 1 0 0 [(2%Z, 0%Z)] 2 1
           (time_grid 2 1) (h_mode omega_20 (time_grid 2 1)) table_20_waveform).
Defined.

(** ** C7: the time grid *)

Lemma Zceil_pos (x : R) : 0 < x -> (1 <= Zceil x)%Z.
Proof.
  intros Hx. destruct (Zceil_bound x) as [_ Hle].
  assert (H : 0 < IZR (Zceil x)) by lra.
  apply lt_IZR in H. lia.
Qed.




(** ** C8: all or nothing *)




(** ** C9: the mass *)

(** C9: the mass argument is never read: two calls that differ only in the
    mass return the same time and strain sequences, or raise the same
    exception. *)
Theorem generate_waveform_mass_irrelevant
    (qnm_data : gmap mode_key (list entry)) (m1 m2 spin eps : R)
    (modes : list mode_key) (duration dt : R) :
  generate_waveform qnm_data m1 spin eps modes duration dt =
  generate_waveform qnm_data m2 spin eps modes duration dt.
Proof. reflexivity. Qed.

(** * Further properties of the module *)

(** ** What the loader stores *)

Lemma entries_of_mode_cons (k : mode_key) (r : row) (rows : list row) :
  entries_of_mode k (r :: rows) =
  if decide (row_mode r = k) then entry_of_row r :: entries_of_mode k rows
  else entries_of_mode k rows.
Proof.
  unfold entries_of_mode. rewrite filter_cons.
  destruct (decide (row_mode r = k)); reflexivity.
Qed.

(** The dictionary after the loop over the rows: a mode without a row keeps
    what it had, and a mode with rows has their entries appended in row
    order. *)
Lemma foldl_append_row_lookup (rows : list row)
    (qnm_data : gmap mode_key (list entry)) (k : mode_key) :
  foldl append_row qnm_data rows !! k =
  match entries_of_mode k rows with
  | [] => qnm_data !! k
  | _ :: _ => Some (default [] (qnm_data !! k) ++ entries_of_mode k rows)
  end.
Proof.
  revert qnm_data. induction rows as [|r rows IH]; intros qnm_data.
  - reflexivity.
  - simpl foldl. rewrite IH, entries_of_mode_cons. unfold append_row.
    fold (row_mode r).
    destruct (decide (row_mode r = k)) as [He|Hne].
    + rewrite He, lookup_insert_eq. simpl default.
      destruct (entries_of_mode k rows) as [|e es]; [reflexivity|].
      now rewrite <- app_assoc.
    + now rewrite lookup_insert_ne by exact Hne.
Qed.

Lemma load_QNM_templates_lookup (rows : list row) (k : mode_key) :
  load_QNM_templates rows !! k =
  match entries_of_mode k rows with
  | [] => None
  | _ :: _ => Some (sort_by_spin (entries_of_mode k rows))
  end.
Proof.
  unfold load_QNM_templates.
  rewrite lookup_fmap, foldl_append_row_lookup, lookup_empty.
  destruct (entries_of_mode k rows); reflexivity.
Qed.

Lemma entries_of_mode_nil (k : mode_key) (rows : list row) :
  entries_of_mode k rows = [] <-> Forall (fun r => row_mode r <> k) rows.
Proof.
  induction rows as [|r rows IH].
  - split; [intros _; apply Forall_nil_2|reflexivity].
  - rewrite entries_of_mode_cons. destruct (decide (row_mode r = k)) as [He|Hne].
    + split; [discriminate|]. intros H. apply Forall_cons_1 in H as [Hr _]. contradiction.
    + rewrite IH. split.
      * intros H. now apply Forall_cons_2.
      * intros H. now apply Forall_cons_1 in H as [_ H].
Qed.

Lemma load_QNM_templates_perm (rows : list row) (k : mode_key) (entries : list entry) :
  load_QNM_templates rows !! k = Some entries ->
  Permutation (entries_of_mode k rows) entries.
Proof.
  rewrite load_QNM_templates_lookup.
  destruct (entries_of_mode k rows) as [|e es]; [discriminate|].
  intros [= <-]. apply (sort_by_spin_perm (e :: es)).
Qed.

(** X1: the loader groups the rows by mode. A mode is absent from the
    table exactly when no row carries it; the list stored for a mode is
    non-empty, ascending in the spin, and a rearrangement of the entries of
    that mode's rows: no row is lost, repeated or filed under another
    mode. *)
Theorem load_QNM_templates_groups (rows : list row) (k : mode_key) :
  (load_QNM_templates rows !! k = None <-> Forall (fun r => row_mode r <> k) rows) /\
  (forall entries : list entry,
     load_QNM_templates rows !! k = Some entries ->
     entries <> [] /\ sorted_by_spin entries /\
     Permutation (entries_of_mode k rows) entries).
Proof.
  rewrite load_QNM_templates_lookup, <- entries_of_mode_nil.
  destruct (entries_of_mode k rows) as [|e es] eqn:Hes.
  - split; [tauto|discriminate].
  - split; [split; discriminate|].
    intros entries [= <-]. split; [|split].
    + apply (sort_by_spin_nonempty (e :: es)). discriminate.
    + apply (sort_by_spin_sorted (e :: es)).
    + apply (sort_by_spin_perm (e :: es)).
Qed.

(** ** Rows of equal spin *)

Lemma with_spin_cons (s : R) (e : entry) (entries : list entry) :
  with_spin s (e :: entries) =
  if Reqb (entry_a e) s then e :: with_spin s entries else with_spin s entries.
Proof. reflexivity. Qed.

Lemma with_spin_insert (s : R) (e : entry) (entries : list entry) :
  with_spin s (insert_by_spin e entries) = with_spin s (e :: entries).
Proof.
  induction entries as [|x rest IH]; [reflexivity|].
  simpl insert_by_spin. destruct (Rltb (entry_a x) (entry_a e)) eqn:Hc; [|reflexivity].
  apply Rltb_true in Hc.
  rewrite with_spin_cons, IH, !with_spin_cons.
  destruct (Reqb (entry_a x) s) eqn:Hx; destruct (Reqb (entry_a e) s) eqn:He;
    try reflexivity.
  apply Reqb_true in Hx, He. lra.
Qed.

(** The sort is stable: the entries at one spin keep their order. *)
Lemma with_spin_sort (s : R) (entries : list entry) :
  with_spin s (sort_by_spin entries) = with_spin s entries.
Proof.
  induction entries as [|e rest IH]; [reflexivity|].
  change (sort_by_spin (e :: rest)) with (insert_by_spin e (sort_by_spin rest)).
  now rewrite with_spin_insert, !with_spin_cons, IH.
Qed.

Lemma with_spin_above (s : R) (entries : list entry) :
  Forall (fun x => s < entry_a x) entries -> with_spin s entries = [].
Proof.
  induction 1 as [|x rest Hx _ IH]; [reflexivity|].
  rewrite with_spin_cons, IH.
  assert (E : Reqb (entry_a x) s = false) by (apply Reqb_false; lra).
  now rewrite E.
Qed.

(** On an ascending list with no spin just below [s], the exact-match scan
    at [s] stops at the first entry stored at [s]. *)
Lemma exact_match_with_spin (entries : list entry) (s : R) (e : entry) :
  StronglySorted spin_le entries ->
  Forall (fun x => entry_a x <= s - tol \/ s <= entry_a x) entries ->
  head (with_spin s entries) = Some e ->
  exact_match entries s = Some e.
Proof.
  intros Hs. induction Hs as [|x rest Hrest IH Hall]; intros Hgap Hhd.
  - discriminate.
  - apply Forall_cons_1 in Hgap as [Hx Hgap].
    rewrite with_spin_cons in Hhd. simpl exact_match.
    destruct (Reqb (entry_a x) s) eqn:Heq.
    + apply Reqb_true in Heq. injection Hhd as <-.
      assert (E : Rltb (Rabs (entry_a x - s)) tol = true).
      { apply Rltb_true. rewrite Heq, Rminus_diag, Rabs_R0. apply tol_pos. }
      now rewrite E.
    + apply Reqb_false in Heq. destruct Hx as [Hx|Hx].
      * assert (E : Rltb (Rabs (entry_a x - s)) tol = false).
        { apply Rltb_false. apply outside_tol_bounds. now left. }
        rewrite E. now apply IH.
      * exfalso. rewrite with_spin_above in Hhd; [discriminate|].
        eapply Forall_impl; [exact Hall|]. intros y Hy. unfold spin_le in Hy. lra.
Qed.




(** X3: rows of one mode that repeat a spin. The query at a spin [s]
    returns the entry of the first row, in file order, among the rows of the
    mode whose spin is exactly [s], provided no row of the mode has a spin
    less than 1e-6 below [s]. *)
Theorem interpolate_entry_first_row_wins (rows : list row) (k : mode_key)
    (s : R) (e : entry) :
  head (with_spin s (entries_of_mode k rows)) = Some e ->
  Forall (fun x => entry_a x <= s - tol \/ s <= entry_a x) (entries_of_mode k rows) ->
  interpolate_entry (load_QNM_templates rows) k s = inr e.
Proof.
  intros Hhd Hgap.
  assert (Hlk : load_QNM_templates rows !! k = Some (sort_by_spin (entries_of_mode k rows))).
  { rewrite load_QNM_templates_lookup.
    destruct (entries_of_mode k rows); [discriminate|reflexivity]. }
  apply (interpolate_entry_exact _ _ _ _ _ Hlk).
  apply exact_match_with_spin.
  - apply Sorted_StronglySorted; [apply spin_le_trans|apply sort_by_spin_sorted].
  - rewrite <- (sort_by_spin_perm (entries_of_mode k rows)). exact Hgap.
  - now rewrite with_spin_sort.
Qed.

Lemma Reqb_refl (x : R) : Reqb x x = true.
Proof. now apply Reqb_true. Qed.

(** The theorem applied to three rows of the mode [(2, 0)], two of them at
    the spin 0. *)
Lemma interpolate_entry_first_row_wins_witness :
  interpolate_entry (load_QNM_templates [row_0; row_0_again; row_1]) (2%Z, 0%Z) 0 =
  inr (entry_of_row row_0).
Proof.
  apply interpolate_entry_first_row_wins.
  - change (entries_of_mode (2%Z, 0%Z) [row_0; row_0_again; row_1])
      with [entry_of_row row_0; entry_of_row row_0_again; entry_of_row row_1].
    rewrite with_spin_cons. change (entry_a (entry_of_row row_0)) with 0.
    rewrite Reqb_refl. reflexivity.
  - change (entries_of_mode (2%Z, 0%Z) [row_0; row_0_again; row_1])
      with [entry_of_row row_0; entry_of_row row_0_again; entry_of_row row_1].
    pose proof tol_pos as Htol.
    apply Forall_cons_2; [right; simpl; lra|].
    apply Forall_cons_2; [right; simpl; lra|].
    apply Forall_cons_2; [right; simpl; lra|apply Forall_nil_2].
Defined.

(** ** What a returned entry is *)

(** An entry the interpolator returns is a stored entry within the
    tolerance of the query, or the interpolation between two neighbours
    that enclose the query strictly. *)
Lemma interpolate_entry_inr_inv (qnm_data : gmap mode_key (list entry))
    (k : mode_key) (a : R) (e : entry) :
  interpolate_entry qnm_data k a = inr e ->
  exists entries : list entry,
    qnm_data !! k = Some entries /\
    (exact_match entries a = Some e \/
     (off_grid entries a /\
      exists (i : nat) (lower upper : entry),
        nth_error entries i = Some lower /\
        nth_error entries (S i) = Some upper /\
        entry_a lower < a < entry_a upper /\
        e = interpolated lower upper a)).
Proof.
  intros H. pose proof H as H'. unfold interpolate_entry in H'.
  destruct (qnm_data !! k) as [entries|] eqn:Hlk; [|discriminate].
  exists entries. split; [reflexivity|].
  destruct (exact_match entries a) as [x|] eqn:Hm.
  - left. now injection H' as ->.
  - right. apply exact_match_None in Hm. split; [exact Hm|].
    apply bind_inr_inv in H' as (e_first & Hfirst & H').
    apply bind_inr_inv in H' as (e_last & Hlast & H').
    destruct (Rltb a (entry_a e_first)) eqn:E1; [discriminate|].
    destruct (Rltb (entry_a e_last) a) eqn:E2; [discriminate|].
    apply Rltb_false in E1, E2.
    destruct (interpolate_entry_bracket qnm_data k entries e_first e_last a)
      as (i & lower & upper & Hlow & Hup & Hbr & Heq); try assumption; [lra|].
    exists i, lower, upper. repeat split; try assumption; try lra.
    rewrite Heq in H. now injection H as <-.
Qed.

Lemma lerp_between (f x y : R) :
  0 <= f <= 1 -> Rmin x y <= x + f * (y - x) <= Rmax x y.
Proof.
  intros Hf. unfold Rmin, Rmax. destruct (Rle_dec x y); nra.
Qed.

Lemma frac_between (a lo hi : R) : lo < a < hi -> 0 <= (a - lo) / (hi - lo) <= 1.
Proof.
  intros H.
  assert (Hq : (a - lo) / (hi - lo) * (hi - lo) = a - lo) by (field; lra).
  split; nra.
Qed.

(** X4: the interpolator never overshoots. Every returned entry has its
    spin within 1e-6 of the query, and each of its six numeric fields lies
    between the values that two stored entries of the mode give to that
    field. *)
Theorem interpolate_entry_between_stored
    (qnm_data : gmap mode_key (list entry)) (k : mode_key) (a : R) (e : entry) :
  interpolate_entry qnm_data k a = inr e ->
  exists (entries : list entry) (lower upper : entry),
    qnm_data !! k = Some entries /\
    lower ∈ entries /\ upper ∈ entries /\
    Rabs (entry_a e - a) < tol /\
    Forall (fun f : entry -> R =>
              Rmin (f lower) (f upper) <= f e <= Rmax (f lower) (f upper)) fields.
Proof.
  intros H.
  destruct (interpolate_entry_inr_inv _ _ _ _ H) as (entries & Hlk & [Hm|Hint]).
  - destruct (exact_match_Some entries a e Hm) as (pre & post & -> & _ & He).
    assert (Hin : e ∈ pre ++ e :: post) by (apply elem_of_app; right; left).
    exists (pre ++ e :: post), e, e. repeat split; try assumption.
    apply Forall_forall. intros f _.
    rewrite Rmin_left, Rmax_left by lra. lra.
  - destruct Hint as (_ & i & lower & upper & Hlow & Hup & Hbr & ->).
    exists entries, lower, upper. split; [exact Hlk|].
    split; [apply list_elem_of_In; eapply nth_error_In; exact Hlow|].
    split; [apply list_elem_of_In; eapply nth_error_In; exact Hup|].
    split.
    + simpl. rewrite Rminus_diag, Rabs_R0. apply tol_pos.
    + pose proof (frac_between a (entry_a lower) (entry_a upper) Hbr) as Hf.
      unfold fields.
      repeat (apply Forall_cons_2; [simpl; now apply lerp_between|]).
      apply Forall_nil_2.
Qed.

Lemma table_20_half :
  interpolate_entry table_20 (2%Z, 0%Z) 0.5 = inr (interpolated entry_0 entry_1 0.5).
Proof.
  destruct (interpolate_entry_bracket table_20 (2%Z, 0%Z) [entry_0; entry_1]
              entry_0 entry_1 0.5)
    as (i & lower & upper & Hlow & Hup & Hbr & Heq).
  - apply table_20_lookup.
  - apply table_20_off_grid; unfold tol; lra.
  - reflexivity.
  - reflexivity.
  - simpl. lra.
  - destruct i as [|[|i]]; simpl in Hlow, Hup; try discriminate.
    injection Hlow as <-. injection Hup as <-. exact Heq.
Qed.

(** The theorem applied to the scenario table and the query 0.5. *)
Lemma interpolate_entry_between_stored_witness :
  exists (entries : list entry) (lower upper : entry),
    table_20 !! (2%Z, 0%Z) = Some entries /\
    lower ∈ entries /\ upper ∈ entries /\
    Rabs (entry_a (interpolated entry_0 entry_1 0.5) - 0.5) < tol /\
    Forall (fun f : entry -> R =>
              Rmin (f lower) (f upper) <= f (interpolated entry_0 entry_1 0.5)
              <= Rmax (f lower) (f upper)) fields.
Proof.
  exact (interpolate_entry_between_stored table_20 (2%Z, 0%Z) 0.5 _ table_20_half).
Defined.

(** ** The outcomes of a frequency lookup *)




(** ** Tables without second-order columns *)

Lemma get_frequency_inr_inv (qnm_data : gmap mode_key (list entry))
    (a : R) (l n : Z) (eps : R) (omega : complex) :
  get_frequency qnm_data a l n eps = inr omega ->
  exists e : entry,
    interpolate_entry qnm_data (l, n) a = inr e /\
    omega = Complex (entry_omega0_R e + (entry_alpha1 e * eps + entry_alpha2 e * eps ^ 2))
                    (entry_omega0_I e + (entry_beta1 e * eps + entry_beta2 e * eps ^ 2)).
Proof.
  intros H. destruct (interpolate_entry qnm_data (l, n) a) as [x|e] eqn:He.
  - unfold get_frequency in H. destruct (qnm_data !! (l, n)); [|discriminate].
    rewrite He in H. discriminate.
  - exists e. split; [reflexivity|].
    rewrite (get_frequency_of_entry _ _ _ _ eps e He) in H. now injection H as <-.
Qed.

(** X6: a table loaded from rows that leave the columns [alpha2] and
    [beta2] of a mode empty gives that mode a frequency of first order in
    [eps], [omega0 + (alpha1 + i beta1) * eps], at stored and at
    interpolated spins alike. *)
Theorem get_frequency_first_order (rows : list row) (a : R) (l n : Z) (eps : R)
    (omega : complex) :
  Forall (fun r => row_mode r = (l, n) -> row_alpha2 r = None /\ row_beta2 r = None) rows ->
  get_frequency (load_QNM_templates rows) a l n eps = inr omega ->
  exists e : entry,
    interpolate_entry (load_QNM_templates rows) (l, n) a = inr e /\
    entry_alpha2 e = 0 /\ entry_beta2 e = 0 /\
    omega = Complex (entry_omega0_R e + entry_alpha1 e * eps)
                    (entry_omega0_I e + entry_beta1 e * eps).
Proof.
  intros Hrows H.
  destruct (get_frequency_inr_inv _ _ _ _ _ _ H) as (e & He & ->).
  assert (Hstored : forall x entries,
            load_QNM_templates rows !! (l, n) = Some entries -> x ∈ entries ->
            entry_alpha2 x = 0 /\ entry_beta2 x = 0).
  { intros x entries Hlk Hx.
    rewrite <- (load_QNM_templates_perm rows (l, n) entries Hlk) in Hx.
    unfold entries_of_mode in Hx.
    apply list_elem_of_fmap in Hx as (r & -> & Hr).
    apply list_elem_of_filter in Hr as [Hmode Hin].
    rewrite Forall_forall in Hrows.
    destruct (Hrows r Hin Hmode) as [H2 H3].
    unfold entry_of_row. simpl. now rewrite H2, H3. }
  assert (Hzero : entry_alpha2 e = 0 /\ entry_beta2 e = 0).
  { destruct (interpolate_entry_inr_inv _ _ _ _ He) as (entries & Hlk & [Hm|Hint]).
    - destruct (exact_match_Some entries a e Hm) as (pre & post & Heq & _).
      apply (Hstored e entries Hlk). rewrite Heq. apply elem_of_app. right. left.
    - destruct Hint as (_ & i & lower & upper & Hlow & Hup & _ & ->).
      destruct (Hstored lower entries Hlk) as [L2 L3];
        [apply list_elem_of_In; eapply nth_error_In; exact Hlow|].
      destruct (Hstored upper entries Hlk) as [U2 U3];
        [apply list_elem_of_In; eapply nth_error_In; exact Hup|].
      simpl. rewrite L2, L3, U2, U3. split; lra. }
  destruct Hzero as [H2 H3].
  exists e. split; [exact He|]. split; [exact H2|]. split; [exact H3|].
  rewrite H2, H3. f_equal; lra.
Qed.

Lemma load_table_20_frequency (eps : R) :
  get_frequency (load_QNM_templates [row_0; row_1]) 0 2 0 eps = inr
    (Complex (0.50 + (0.02 * eps + 0 * eps ^ 2)) (-0.10 + (-0.01 * eps + 0 * eps ^ 2))).
Proof.
  rewrite load_table_20.
  apply (get_frequency_of_entry table_20 2 0 0 eps entry_0).
  apply (interpolate_entry_exact _ _ [entry_0; entry_1]); [apply table_20_lookup|].
  apply (exact_match_first [] entry_0 [entry_1]); [apply off_grid_nil|].
  apply within_tol_bounds. unfold tol. simpl. lra.
Qed.

(** The theorem applied to the scenario rows, the spin 0 and eps 0.1. *)
Lemma get_frequency_first_order_witness :
  exists e : entry,
    interpolate_entry (load_QNM_templates [row_0; row_1]) (2%Z, 0%Z) 0 = inr e /\
    entry_alpha2 e = 0 /\ entry_beta2 e = 0 /\
    Complex (0.50 + (0.02 * 0.1 + 0 * 0.1 ^ 2)) (-0.10 + (-0.01 * 0.1 + 0 * 0.1 ^ 2)) =
    Complex (entry_omega0_R e + entry_alpha1 e * 0.1)
            (entry_omega0_I e + entry_beta1 e * 0.1).
Proof.
  apply (get_frequency_first_order [row_0; row_1] 0 2 0 0.1).
  - apply Forall_cons_2; [intros _; split; reflexivity|].
    apply Forall_cons_2; [intros _; split; reflexivity|apply Forall_nil_2].
  - apply load_table_20_frequency.
Defined.

(** ** The size of the strain *)

Lemma exp_nonpos_le_1 (x : R) : x <= 0 -> exp x <= 1.
Proof.
  intros [Hlt | ->].
  - left. rewrite <- exp_0. now apply exp_increasing.
  - rewrite exp_0. lra.
Qed.

(** A decaying term is at most 1 in absolute value. *)
Lemma mode_term_bound (omega : complex) (ti : R) :
  imag omega * ti <= 0 ->
  Rabs (1 * exp (imag omega * ti) * cos (real omega * ti)) <= 1.
Proof.
  intros H. rewrite Rmult_1_l, Rabs_mult.
  pose proof (exp_pos (imag omega * ti)) as Hpos.
  pose proof (exp_nonpos_le_1 _ H) as Hle.
  rewrite (Rabs_pos_eq (exp _)) by lra.
  assert (Hc : Rabs (cos (real omega * ti)) <= 1)
    by (apply Rabs_le; apply COS_bound).
  pose proof (Rabs_pos (cos (real omega * ti))). nra.
Qed.

Lemma Rsum_abs_bound (l : list R) :
  Forall (fun x => Rabs x <= 1) l -> Rabs (Rsum l) <= INR (length l).
Proof.
  induction 1 as [|x l Hx _ IH].
  - simpl. rewrite Rabs_R0. lra.
  - change (Rsum (x :: l)) with (x + Rsum l).
    change (length (x :: l)) with (S (length l)). rewrite S_INR.
    pose proof (Rabs_triang x (Rsum l)). lra.
Qed.

Lemma frequencies_of_length (qnm_data : gmap mode_key (list entry)) (spin eps : R)
    (modes : list mode_key) (omegas : list complex) :
  frequencies_of qnm_data spin eps modes omegas -> length omegas = length modes.
Proof. intros H. symmetry. eapply Forall2_length. exact H. Qed.

Lemma frequencies_of_elem (qnm_data : gmap mode_key (list entry)) (spin eps : R)
    (modes : list mode_key) (omegas : list complex) (omega : complex) :
  frequencies_of qnm_data spin eps modes omegas -> omega ∈ omegas ->
  exists k, k ∈ modes /\ get_frequency qnm_data spin (fst k) (snd k) eps = inr omega.
Proof.
  induction 1 as [|k w modes omegas Hk _ IH]; intros Hin.
  - inversion Hin.
  - apply elem_of_cons in Hin as [->|Hin].
    + exists k. split; [left|exact Hk].
    + destruct (IH Hin) as (k' & Hk' & Hw). exists k'. split; [now right|exact Hw].
Qed.

(** The sample of a returned strain at the grid index [i]. *)
Lemma generate_waveform_sample (qnm_data : gmap mode_key (list entry))
    (mass spin eps : R) (modes : list mode_key) (duration dt : R) (t h : list R)
    (i : nat) (x : R) :
  generate_waveform qnm_data mass spin eps modes duration dt = inr (t, h) ->
  h !! i = Some x ->
  exists omegas : list complex,
    frequencies_of qnm_data spin eps modes omegas /\
    t !! i = Some (INR i * dt) /\
    x = Rsum (map (fun omega =>
          1 * exp (imag omega * (INR i * dt)) * cos (real omega * (INR i * dt))) omegas).
Proof.
  intros H Hx.
  destruct (generate_waveform_frequencies _ _ _ _ _ _ _ _ _ H)
    as (omegas & Hf & Hdt & Ht & Hh).
  assert (Hlen : length h = length t).
  { rewrite Hh. apply foldl_h_mode_length. unfold np_zeros_like. apply length_map. }
  assert (Hi : (i < Z.to_nat (Zceil (duration / dt)))%nat).
  { rewrite <- time_grid_length, <- Ht, <- Hlen. eapply lookup_lt_Some. exact Hx. }
  assert (Hti : t !! i = Some (INR i * dt)).
  { rewrite Ht. now apply time_grid_lookup. }
  exists omegas. split; [exact Hf|]. split; [exact Hti|].
  rewrite Hh in Hx.
  rewrite (foldl_h_mode_lookup omegas t (np_zeros_like t) i _ 0 Hti
             (np_zeros_like_lookup t i _ Hti)) in Hx.
  injection Hx as <-. lra.
Qed.

(** X7: with a positive step, when the frequency of every requested mode
    has a non-positive imaginary part (no growing mode), every sample of the
    strain is bounded in absolute value by the number of requested modes. *)
Theorem generate_waveform_bounded (qnm_data : gmap mode_key (list entry))
    (mass spin eps : R) (modes : list mode_key) (duration dt : R) (t h : list R) :
  0 < dt ->
  (forall (k : mode_key) (omega : complex), k ∈ modes ->
     get_frequency qnm_data spin (fst k) (snd k) eps = inr omega -> imag omega <= 0) ->
  generate_waveform qnm_data mass spin eps modes duration dt = inr (t, h) ->
  Forall (fun x => Rabs x <= INR (length modes)) h.
Proof.
  intros Hdt Hdecay H. apply Forall_forall. intros x Hx.
  apply list_elem_of_lookup in Hx as (i & Hi).
  destruct (generate_waveform_sample _ _ _ _ _ _ _ _ _ _ _ H Hi)
    as (omegas & Hf & _ & ->).
  rewrite <- (frequencies_of_length _ _ _ _ _ Hf).
  rewrite <- (length_map (fun omega =>
     1 * exp (imag omega * (INR i * dt)) * cos (real omega * (INR i * dt))) omegas).
  apply Rsum_abs_bound. apply Forall_fmap. apply Forall_forall. intros omega Hw.
  apply mode_term_bound.
  destruct (frequencies_of_elem _ _ _ _ _ _ Hf Hw) as (k & Hk & Hfreq).
  pose proof (Hdecay k omega Hk Hfreq) as Him.
  pose proof (pos_INR i) as Hpos.
  assert (0 <= INR i * dt) by (apply Rmult_le_pos; lra). nra.
Qed.

Lemma table_20_waveform_for (duration : R) :
  generate_waveform table_20 1 0 0 [(2%Z, 0%Z)] duration 1 =
  inr (time_grid duration 1, h_mode omega_20 (time_grid duration 1)).
Proof.
  rewrite (generate_waveform_ok table_20 1 0 0 [(2%Z, 0%Z)] [omega_20] duration 1).
  - simpl foldl. now rewrite zeros_plus_h_mode.
  - lra.
  - apply (table_20_frequencies [(2%Z, 0%Z)]).
    apply Forall_cons_2; [reflexivity|apply Forall_nil_2].
Qed.

Lemma table_20_decays (k : mode_key) (omega : complex) :
  k ∈ [(2%Z, 0%Z)] ->
  get_frequency table_20 0 (fst k) (snd k) 0 = inr omega -> imag omega <= 0.
Proof.
  intros Hk. apply list_elem_of_singleton in Hk as ->. simpl fst. simpl snd.
  rewrite table_20_omega_20. intros [= <-]. simpl. lra.
Qed.

(** The theorem applied to the single-mode waveform of the scenario
    table. *)
Lemma generate_waveform_bounded_witness :
  Forall (fun x => Rabs x <= INR (length [(2%Z, 0%Z)])) (h_mode omega_20 (time_grid 2 1)).
Proof.
  assert (Hdt : 0 < 1) by lra.
  exact (generate_waveform_bounded table_20 1 0 0 [(2%Z, 0%Z)] 2 1 _ _
           Hdt table_20_decays (table_20_waveform_for 2)).
Defined.

Lemma Rsum_initial_terms (omegas : list complex) (dt : R) :
  Rsum (map (fun omega =>
         1 * exp (imag omega * (INR 0 * dt)) * cos (real omega * (INR 0 * dt))) omegas) =
  INR (length omegas).
Proof.
  induction omegas as [|omega omegas IH]; [reflexivity|].
  change (length (omega :: omegas)) with (S (length omegas)). rewrite S_INR, <- IH.
  set (f := fun omega : complex =>
         1 * exp (imag omega * (INR 0 * dt)) * cos (real omega * (INR 0 * dt))).
  change (f omega + Rsum (map f omegas) = Rsum (map f omegas) + 1).
  assert (Hf : f omega = 1).
  { unfold f. simpl INR. rewrite Rmult_0_l, !Rmult_0_r, exp_0, cos_0. lra. }
  rewrite Hf. lra.
Qed.

(** X8: at the first grid point every mode contributes exactly 1, so the
    first sample of a returned strain is the number of requested modes. *)
Theorem generate_waveform_initial_sample (qnm_data : gmap mode_key (list entry))
    (mass spin eps : R) (modes : list mode_key) (duration dt : R) (t h : list R)
    (x : R) :
  generate_waveform qnm_data mass spin eps modes duration dt = inr (t, h) ->
  h !! 0%nat = Some x ->
  x = INR (length modes).
Proof.
  intros H Hx.
  destruct (generate_waveform_sample _ _ _ _ _ _ _ _ _ _ _ H Hx)
    as (omegas & Hf & _ & ->).
  rewrite <- (frequencies_of_length _ _ _ _ _ Hf).
  apply Rsum_initial_terms.
Qed.

Lemma time_grid_2_1_first :
  h_mode omega_20 (time_grid 2 1) !! 0%nat =
  Some (1 * exp (imag omega_20 * (INR 0 * 1)) * cos (real omega_20 * (INR 0 * 1))).
Proof.
  apply h_mode_lookup. apply time_grid_lookup.
  assert (H : 0 < 2 / 1) by lra. pose proof (Zceil_pos _ H). lia.
Qed.

(** The theorem applied to the single-mode waveform of the scenario
    table. *)
Lemma generate_waveform_initial_sample_witness :
  1 * exp (imag omega_20 * (INR 0 * 1)) * cos (real omega_20 * (INR 0 * 1)) =
  INR (length [(2%Z, 0%Z)]).
Proof.
  exact (generate_waveform_initial_sample table_20 1 0 0 [(2%Z, 0%Z)] 2 1 _ _ _
           (table_20_waveform_for 2) time_grid_2_1_first).
Defined.

(** ** The order of the modes *)






(** ** Degenerate grids *)

(** X10: when the duration is not positive and the step is positive, or
    the duration is not negative and the step is negative, the grid is
    empty: a returned waveform has no time point and no sample. The lookups
    of the requested modes are made all the same, and their failures
    raised. *)
Theorem generate_waveform_empty_grid (qnm_data : gmap mode_key (list entry))
    (mass spin eps : R) (modes : list mode_key) (duration dt : R) :
  (duration <= 0 /\ 0 < dt) \/ (0 <= duration /\ dt < 0) ->
  (forall t h : list R,
     generate_waveform qnm_data mass spin eps modes duration dt = inr (t, h) ->
     t = [] /\ h = []) /\
  (Forall (lookup_succeeds qnm_data spin eps) modes ->
   generate_waveform qnm_data mass spin eps modes duration dt = inr ([], [])) /\
  (forall (pre post : list mode_key) (k : mode_key) (e : exception),
     modes = pre ++ k :: post ->
     Forall (lookup_succeeds qnm_data spin eps) pre ->
     get_frequency qnm_data spin (fst k) (snd k) eps = inl e ->
     generate_waveform qnm_data mass spin eps modes duration dt = inl e).
Proof.
  intros Hcase.
  assert (Hdt : dt <> 0) by lra.
  assert (Hq : duration / dt <= 0).
  { assert (Hm : duration / dt * dt = duration) by (field; lra).
    destruct Hcase as [[H1 H2]|[H1 H2]]; nra. }
  assert (Hgrid : time_grid duration dt = []).
  { unfold time_grid. destruct (Zceil_bound (duration / dt)) as [Hlt _].
    assert (Hc : IZR (Zceil (duration / dt)) < 1) by lra.
    apply lt_IZR in Hc.
    replace (Z.to_nat (Zceil (duration / dt))) with 0%nat by lia. reflexivity. }
  assert (Hempty : forall t h,
     generate_waveform qnm_data mass spin eps modes duration dt = inr (t, h) ->
     t = [] /\ h = []).
  { intros t h H.
    destruct (generate_waveform_frequencies _ _ _ _ _ _ _ _ _ H)
      as (omegas & Hf & _ & Ht & Hh).
    rewrite Hgrid in Ht. split; [exact Ht|].
    apply length_zero_iff_nil. rewrite Hh.
    rewrite foldl_h_mode_length; [now rewrite Ht|].
    unfold np_zeros_like. apply length_map. }
  split; [exact Hempty|]. split.
  - intros Hall. apply frequencies_of_succeeds in Hall as (omegas & Hf).
    pose proof (generate_waveform_ok _ mass _ _ _ omegas duration dt Hdt Hf) as H.
    destruct (Hempty _ _ H) as [Ht Hh]. now rewrite H, Hh, Ht.
  - intros pre post k e -> Hpre Hk.
    apply frequencies_of_succeeds in Hpre as (omegas & Hf).
    unfold generate_waveform.
    rewrite (np_arange_time_grid _ _ Hdt), bind_ret.
    now rewrite (modes_loop_raise _ _ _ pre post k omegas e _ _ Hf Hk).
Qed.

(** The theorem applied to the scenario table and the duration 0. *)
Lemma generate_waveform_empty_grid_witness :
  generate_waveform table_20 1 0 0 [(2%Z, 0%Z)] 0 1 = inr ([], []).
Proof.
  assert (Hcase : (0 <= 0 /\ 0 < 1) \/ (0 <= 0 /\ 1 < 0)) by (left; lra).
  apply (proj1 (proj2 (generate_waveform_empty_grid table_20 1 0 0 [(2%Z, 0%Z)] 0 1 Hcase))).
  apply Forall_cons_2; [|apply Forall_nil_2].
  exists omega_20. exact table_20_omega_20.
Defined.

(** * The shear-enhancement scripts *)

(** ** The loaded lists *)

Lemma load_row_aligned (py_float : string -> option R) (is_comment : string -> bool)
    (d : SSE.data) (row : list string) :
  SSE.aligned d -> SSE.aligned (SSE.load_row py_float is_comment d row).
Proof.
  intros [H1 H2]. unfold SSE.load_row.
  destruct row as [|cell0 rest]; [now split|].
  destruct (is_comment cell0); [now split|].
  destruct (length (cell0 :: rest) <? 3)%nat; [now split|].
  destruct (py_float cell0); [|now split].
  destruct (py_float (nth 1 (cell0 :: rest) EmptyString)); [|now split].
  destruct (py_float (nth 2 (cell0 :: rest) EmptyString)); [|now split].
  split; simpl; rewrite !length_app; simpl; lia.
Qed.

Lemma foldl_load_row_aligned (py_float : string -> option R)
    (is_comment : string -> bool) (rows : list (list string)) (d : SSE.data) :
  SSE.aligned d -> SSE.aligned (foldl (SSE.load_row py_float is_comment) d rows).
Proof.
  revert d. induction rows as [|row rows IH]; intros d H; simpl.
  - exact H.
  - apply IH. now apply load_row_aligned.
Qed.

Lemma foldl_load_row_length (py_float : string -> option R)
    (is_comment : string -> bool) (rows : list (list string)) (d : SSE.data) :
  (length (SSE._sigma_values (foldl (SSE.load_row py_float is_comment) d rows))
   <= length (SSE._sigma_values d) + length rows)%nat.
Proof.
  revert d. induction rows as [|row rows IH]; intros d; simpl; [lia|].
  specialize (IH (SSE.load_row py_float is_comment d row)).
  assert (Hrow : (length (SSE._sigma_values (SSE.load_row py_float is_comment d row))
                  <= S (length (SSE._sigma_values d)))%nat).
  { unfold SSE.load_row. destruct row as [|cell0 rest]; [lia|].
    destruct (is_comment cell0); [lia|].
    destruct (length (cell0 :: rest) <? 3)%nat; [lia|].
    destruct (py_float cell0); [|lia].
    destruct (py_float (nth 1 (cell0 :: rest) EmptyString)); [|lia].
    destruct (py_float (nth 2 (cell0 :: rest) EmptyString)); [|lia].
    simpl. rewrite length_app. simpl. lia. }
  lia.
Qed.

(** X11: whatever the file holds, [_load_data] leaves the three lists with
    one length: a row is stored in all three lists or in none. A missing
    file is the only failure. *)
Theorem load_data_aligned (py_float : string -> option R)
    (is_comment : string -> bool) (file : option (list (list string))) :
  match file with
  | None => SSE._load_data py_float is_comment file = inl SSE.FileNotFoundError
  | Some rows =>
      exists d : SSE.data,
        SSE._load_data py_float is_comment file = inr d /\
        length (SSE._B_low_values d) = length (SSE._sigma_values d) /\
        length (SSE._B_high_values d) = length (SSE._sigma_values d) /\
        (length (SSE._sigma_values d) <= length rows)%nat
  end.
Proof.
  destruct file as [rows|]; [|reflexivity].
  eexists. split; [reflexivity|].
  assert (Ha : SSE.aligned (foldl (SSE.load_row py_float is_comment) (SSE.Data [] [] []) rows)).
  { apply foldl_load_row_aligned. now split. }
  destruct Ha as [H1 H2]. split; [exact H1|]. split; [exact H2|].
  apply (foldl_load_row_length py_float is_comment rows (SSE.Data [] [] [])).
Qed.

(** ** The interpolation of the table *)

Lemma sse_getitem_nat (l : list R) (i : nat) (x : R) :
  l !! i = Some x -> SSE.getitem l (Z.of_nat i) = inr x.
Proof.
  intros H. unfold SSE.getitem.
  rewrite (py_getitem_nat l i x); [reflexivity|]. now rewrite nth_error_list_lookup.
Qed.

Lemma sse_getitem_pred (l : list R) (i : nat) (x : R) :
  (1 <= i)%nat -> l !! (i - 1)%nat = Some x -> SSE.getitem l (Z.of_nat i - 1) = inr x.
Proof.
  intros Hi H. replace (Z.of_nat i - 1)%Z with (Z.of_nat (i - 1)) by lia.
  now apply sse_getitem_nat.
Qed.

Lemma sse_getitem_last (l : list R) (x : R) :
  l !! (length l - 1)%nat = Some x -> SSE.getitem l (-1) = inr x.
Proof.
  intros H.
  assert (Hlen : (length l - 1 < length l)%nat) by (eapply lookup_lt_Some; exact H).
  destruct (exists_last (l := l)) as (init & y & ->).
  { intros ->. simpl in Hlen. lia. }
  rewrite length_app in H. simpl in H.
  rewrite lookup_app_r in H by lia.
  replace (length init + 1 - 1 - length init)%nat with 0%nat in H by lia.
  injection H as ->.
  unfold SSE.getitem. now rewrite py_getitem_last.
Qed.

Lemma sse_div (x y : R) : y <> 0 -> SSE.div x y = inr (x / y).
Proof. intros H. unfold SSE.div. apply Reqb_false in H. now rewrite H. Qed.

Lemma frac_between_le (a lo hi : R) : lo <= a < hi -> 0 <= (a - lo) / (hi - lo) <= 1.
Proof.
  intros H.
  assert (Hq : (a - lo) / (hi - lo) * (hi - lo) = a - lo) by (field; lra).
  split; nra.
Qed.

(** The loop over the intervals, started at the index [a] with the entry
    before it not above the query: it stops at the first interval whose
    upper end is above the query, or runs to its end when there is none. *)
Lemma interval_loop_spec (sigma values : list R) (sigma_v : R) :
  length values = length sigma ->
  forall (m a : nat),
    (1 <= a)%nat -> (a + m <= length sigma)%nat ->
    (exists prev, sigma !! (a - 1)%nat = Some prev /\ prev <= sigma_v) ->
    match SSE.interval_loop sigma values sigma_v (seq a m) with
    | None =>
        forall (j : nat) (x : R),
          (a <= j < a + m)%nat -> sigma !! j = Some x -> x <= sigma_v
    | Some r =>
        exists (i : nat) (slo shi lo hi : R),
          (a <= i < a + m)%nat /\
          sigma !! (i - 1)%nat = Some slo /\ sigma !! i = Some shi /\
          values !! (i - 1)%nat = Some lo /\ values !! i = Some hi /\
          slo <= sigma_v < shi /\
          r = inr (lo + (sigma_v - slo) / (shi - slo) * (hi - lo))
    end.
Proof.
  intros Hlen m. induction m as [|m IH]; intros a Ha Hbound (prev & Hprev & Hle).
  - simpl. intros j x Hj. lia.
  - simpl seq. simpl SSE.interval_loop.
    destruct (lookup_lt_is_Some_2 sigma a) as [x Hx]; [lia|].
    rewrite (sse_getitem_nat sigma a x Hx).
    destruct (Rltb sigma_v x) eqn:Hc.
    + apply Rltb_true in Hc.
      destruct (lookup_lt_is_Some_2 values (a - 1)) as [lo Hlo]; [lia|].
      destruct (lookup_lt_is_Some_2 values a) as [hi Hhi]; [lia|].
      exists a, prev, x, lo, hi.
      split; [lia|]. repeat (split; [assumption|]). split; [lra|].
      rewrite (sse_getitem_pred sigma a prev Ha Hprev).
      rewrite (sse_getitem_pred values a lo Ha Hlo).
      rewrite (sse_getitem_nat values a hi Hhi).
      simpl. rewrite sse_div by lra. reflexivity.
    + apply Rltb_false in Hc.
      assert (Hnext : exists prev', sigma !! (S a - 1)%nat = Some prev' /\ prev' <= sigma_v).
      { exists x. split; [|exact Hc]. now replace (S a - 1)%nat with a by lia. }
      specialize (IH (S a) ltac:(lia) ltac:(lia) Hnext).
      destruct (SSE.interval_loop sigma values sigma_v (seq (S a) m)) as [r|].
      * destruct IH as (i & slo & shi & lo & hi & Hi & H).
        exists i, slo, shi, lo, hi. split; [lia|exact H].
      * intros j y Hj Hy. destruct (Nat.eq_dec j a) as [->|Hne].
        -- rewrite Hx in Hy. injection Hy as <-. exact Hc.
        -- apply (IH j y); [lia|exact Hy].
Qed.

Lemma selects_length (d : SSE.data) (mode : string) (values : list R) :
  SSE.aligned d -> SSE.selects d mode values ->
  length values = length (SSE._sigma_values d).
Proof. intros [H1 H2] [[_ ->]|[_ ->]]; assumption. Qed.

(** [interpolate_B] on loaded lists, after the choice of the series. *)
Lemma interpolate_B_loaded (py_float : string -> option R) (is_comment : string -> bool)
    (file : option (list (list string))) (d : SSE.data) (sigma_v : R)
    (mode : string) (values : list R) (s0 sl : R) :
  SSE.selects d mode values ->
  SSE._sigma_values d !! 0%nat = Some s0 ->
  SSE._sigma_values d !! (length (SSE._sigma_values d) - 1)%nat = Some sl ->
  SSE.interpolate_B py_float is_comment file d sigma_v mode =
  if Rltb s0 sigma_v then
    if Rltb sigma_v sl then
      match SSE.interval_loop (SSE._sigma_values d) values sigma_v
              (seq 1 (length (SSE._sigma_values d) - 1)) with
      | Some r => r
      | None => SSE.getitem values (-1)
      end
    else SSE.getitem values (-1)
  else SSE.getitem values 0.
Proof.
  intros Hsel Hs0 Hsl. unfold SSE.interpolate_B.
  assert (Hd : match SSE._sigma_values d with
               | [] => SSE._load_data py_float is_comment file
               | _ :: _ => inr d
               end = inr d).
  { destruct (SSE._sigma_values d); [discriminate|reflexivity]. }
  rewrite Hd. cbn [SSE.bind].
  assert (Hm : forall (k : list R -> SSE.result R),
            SSE.bind (if String.eqb mode "low" then inr (SSE._B_low_values d)
                      else if String.eqb mode "high" then inr (SSE._B_high_values d)
                      else inl SSE.ValueError_mode) k = k values).
  { intros k. destruct Hsel as [[-> ->]|[-> ->]]; reflexivity. }
  rewrite Hm.
  pose proof (sse_getitem_nat _ 0%nat s0 Hs0) as Hg.
  change (Z.of_nat 0) with 0%Z in Hg. rewrite Hg. cbn [SSE.bind].
  destruct (Rltb s0 sigma_v); [|reflexivity].
  rewrite (sse_getitem_last _ sl Hsl). cbn [SSE.bind]. reflexivity.
Qed.

(** The three ways [interpolate_B] answers on loaded, aligned lists: the
    first value at or below the first dispersion, the last value at or above
    the last one, and the interpolation inside the first interval whose
    upper end is above the query. *)
Lemma interpolate_B_cases (py_float : string -> option R) (is_comment : string -> bool)
    (file : option (list (list string))) (d : SSE.data) (sigma_v : R)
    (mode : string) (values : list R) (s0 sl v0 vl : R) :
  SSE.aligned d -> SSE.selects d mode values ->
  SSE._sigma_values d !! 0%nat = Some s0 ->
  SSE._sigma_values d !! (length (SSE._sigma_values d) - 1)%nat = Some sl ->
  values !! 0%nat = Some v0 ->
  values !! (length values - 1)%nat = Some vl ->
  (sigma_v <= s0 /\
   SSE.interpolate_B py_float is_comment file d sigma_v mode = inr v0) \/
  (s0 < sigma_v /\ sl <= sigma_v /\
   SSE.interpolate_B py_float is_comment file d sigma_v mode = inr vl) \/
  (s0 < sigma_v < sl /\
   exists (i : nat) (slo shi lo hi : R),
     (1 <= i < length (SSE._sigma_values d))%nat /\
     SSE._sigma_values d !! (i - 1)%nat = Some slo /\
     SSE._sigma_values d !! i = Some shi /\
     values !! (i - 1)%nat = Some lo /\ values !! i = Some hi /\
     slo <= sigma_v < shi /\
     SSE.interpolate_B py_float is_comment file d sigma_v mode =
       inr (lo + (sigma_v - slo) / (shi - slo) * (hi - lo))).
Proof.
  intros Hal Hsel Hs0 Hsl Hv0 Hvl.
  pose proof (selects_length _ _ _ Hal Hsel) as Hlen.
  rewrite (interpolate_B_loaded py_float is_comment file d sigma_v mode values s0 sl
             Hsel Hs0 Hsl).
  destruct (Rltb s0 sigma_v) eqn:H1.
  2:{ apply Rltb_false in H1. left. split; [exact H1|].
      apply (sse_getitem_nat values 0%nat v0 Hv0). }
  apply Rltb_true in H1. right.
  destruct (Rltb sigma_v sl) eqn:H2.
  2:{ apply Rltb_false in H2. left. split; [exact H1|]. split; [exact H2|].
      now apply sse_getitem_last. }
  apply Rltb_true in H2. right. split; [lra|].
  assert (Hpos : (1 <= length (SSE._sigma_values d))%nat).
  { apply lookup_lt_Some in Hs0. lia. }
  pose proof (interval_loop_spec (SSE._sigma_values d) values sigma_v Hlen
                (length (SSE._sigma_values d) - 1) 1 ltac:(lia) ltac:(lia)) as Hloop.
  assert (Hprev : exists prev, SSE._sigma_values d !! (1 - 1)%nat = Some prev /\ prev <= sigma_v).
  { exists s0. split; [exact Hs0|lra]. }
  specialize (Hloop Hprev).
  destruct (SSE.interval_loop (SSE._sigma_values d) values sigma_v
              (seq 1 (length (SSE._sigma_values d) - 1))) as [r|].
  - destruct Hloop as (i & slo & shi & lo & hi & Hi & Hslo & Hshi & Hlo & Hhi & Hbr & ->).
    exists i, slo, shi, lo, hi. split; [lia|]. now repeat (split; [assumption|]).
  - exfalso.
    destruct (Nat.eq_dec (length (SSE._sigma_values d)) 1%nat) as [E|E].
    + rewrite E in Hsl. simpl in Hsl. rewrite Hs0 in Hsl. injection Hsl as <-. lra.
    + pose proof (Hloop (length (SSE._sigma_values d) - 1)%nat sl ltac:(lia) Hsl). lra.
Qed.

(** A non-empty list has a first and a last element, by index. *)
Lemma first_last_lookup (l : list R) :
  l <> [] -> exists x y, l !! 0%nat = Some x /\ l !! (length l - 1)%nat = Some y.
Proof.
  intros H.
  destruct (lookup_lt_is_Some_2 l 0) as [x Hx].
  { destruct l; [congruence|simpl; lia]. }
  destruct (lookup_lt_is_Some_2 l (length l - 1)) as [y Hy].
  { destruct l; [congruence|simpl; lia]. }
  now exists x, y.
Qed.

(** X12: on loaded lists of one length and with the mode ["low"] or
    ["high"], [interpolate_B] always returns a value and never raises. The
    value lies between two tabulated values of the chosen series, so nothing
    is extrapolated: at or below the first dispersion it is the first
    tabulated value, and above the first and at or above the last it is the
    last tabulated value. *)
Theorem interpolate_B_clamps (py_float : string -> option R)
    (is_comment : string -> bool) (file : option (list (list string)))
    (d : SSE.data) (sigma_v : R) (mode : string) (values : list R) :
  SSE._sigma_values d <> [] ->
  SSE.aligned d ->
  SSE.selects d mode values ->
  exists v : R,
    SSE.interpolate_B py_float is_comment file d sigma_v mode = inr v /\
    (exists lo hi : R, lo ∈ values /\ hi ∈ values /\ Rmin lo hi <= v <= Rmax lo hi) /\
    (forall s0 : R, head (SSE._sigma_values d) = Some s0 -> sigma_v <= s0 ->
       head values = Some v) /\
    (forall s0 sl : R,
       head (SSE._sigma_values d) = Some s0 -> last (SSE._sigma_values d) = Some sl ->
       s0 < sigma_v -> sl <= sigma_v -> last values = Some v).
Proof.
  intros Hne Hal Hsel.
  pose proof (selects_length _ _ _ Hal Hsel) as Hlen.
  assert (Hvne : values <> []).
  { intros ->. apply Hne. apply length_zero_iff_nil. now rewrite <- Hlen. }
  destruct (first_last_lookup _ Hne) as (s0 & sl & Hs0 & Hsl).
  destruct (first_last_lookup _ Hvne) as (v0 & vl & Hv0 & Hvl).
  assert (Hhead : forall (l : list R) x, l !! 0%nat = Some x -> head l = Some x).
  { intros l x H. destruct l; [discriminate|exact H]. }
  assert (Hlast : forall (l : list R) x, l !! (length l - 1)%nat = Some x -> last l = Some x).
  { intros l x H. rewrite last_lookup. now replace (Nat.pred (length l)) with (length l - 1)%nat by lia. }
  pose proof (Hhead _ _ Hs0) as Hhs. pose proof (Hlast _ _ Hsl) as Hls.
  destruct (interpolate_B_cases py_float is_comment file d sigma_v mode values
              s0 sl v0 vl Hal Hsel Hs0 Hsl Hv0 Hvl)
    as [[Hc Hr]|[(Hc1 & Hc2 & Hr)|(Hc & i & slo & shi & lo & hi & Hi & Hslo & Hshi & Hlo & Hhi & Hbr & Hr)]].
  - exists v0. split; [exact Hr|]. split; [|split].
    + exists v0, v0. split; [eapply list_elem_of_lookup_2; exact Hv0|].
      split; [eapply list_elem_of_lookup_2; exact Hv0|].
      rewrite Rmin_left, Rmax_left by lra. lra.
    + intros _ _ _. now apply Hhead.
    + intros s0' sl' H0 _ Hlt _. rewrite Hhs in H0. injection H0 as <-. lra.
  - exists vl. split; [exact Hr|]. split; [|split].
    + exists vl, vl. split; [eapply list_elem_of_lookup_2; exact Hvl|].
      split; [eapply list_elem_of_lookup_2; exact Hvl|].
      rewrite Rmin_left, Rmax_left by lra. lra.
    + intros s0' H0 Hle. rewrite Hhs in H0. injection H0 as <-. lra.
    + intros _ _ _ _ _ _. now apply Hlast.
  - eexists. split; [exact Hr|]. split; [|split].
    + exists lo, hi. split; [eapply list_elem_of_lookup_2; exact Hlo|].
      split; [eapply list_elem_of_lookup_2; exact Hhi|].
      apply lerp_between. now apply frac_between_le.
    + intros s0' H0 Hle. rewrite Hhs in H0. injection H0 as <-. lra.
    + intros s0' sl' _ H1 _ Hle. rewrite Hls in H1. injection H1 as <-. lra.
Qed.

Lemma shear_table_aligned : SSE.aligned shear_table.
Proof. split; reflexivity. Qed.

Lemma shear_table_low : SSE.selects shear_table "low" [1; 1.1].
Proof. left. split; reflexivity. Qed.

Lemma shear_table_nonempty : SSE._sigma_values shear_table <> [].
Proof. discriminate. Qed.

(** The theorem applied to the small table, the series ["low"] and the
    dispersion 50. *)
Lemma interpolate_B_clamps_witness :
  exists v : R,
    SSE.interpolate_B (fun _ => None) (fun _ => false) None shear_table 50 "low" = inr v /\
    (exists lo hi : R, lo ∈ [1; 1.1] /\ hi ∈ [1; 1.1] /\ Rmin lo hi <= v <= Rmax lo hi) /\
    (forall s0 : R, head (SSE._sigma_values shear_table) = Some s0 -> 50 <= s0 ->
       head [1; 1.1] = Some v) /\
    (forall s0 sl : R,
       head (SSE._sigma_values shear_table) = Some s0 ->
       last (SSE._sigma_values shear_table) = Some sl ->
       s0 < 50 -> sl <= 50 -> last [1; 1.1] = Some v).
Proof.
  exact (interpolate_B_clamps (fun _ => None) (fun _ => false) None shear_table 50 "low"
           [1; 1.1] shear_table_nonempty shear_table_aligned shear_table_low).
Defined.

(** ** Tabulated points *)

#[local] Instance Rlt_transitive : Transitive Rlt.
Proof. intros x y z. apply Rlt_trans. Qed.

Lemma strictly_sorted_lookup (l : list R) (a b : nat) (x y : R) :
  StronglySorted Rlt l -> l !! a = Some x -> l !! b = Some y -> (a < b)%nat -> x < y.
Proof.
  intros Hs. revert a b. induction Hs as [|z l Hs IH Hall]; intros a b Ha Hb Hlt.
  - discriminate.
  - destruct b as [|b]; [lia|]. simpl in Hb. destruct a as [|a].
    + simpl in Ha. injection Ha as <-.
      rewrite Forall_forall in Hall. apply Hall.
      eapply list_elem_of_lookup_2. exact Hb.
    + simpl in Ha. apply (IH a b); [assumption|assumption|lia].
Qed.

(** X13: when the dispersions are strictly ascending, [interpolate_B] at
    a tabulated dispersion returns the value tabulated with it: the
    interpolation passes through every point of the table. *)
Theorem interpolate_B_at_tabulated (py_float : string -> option R)
    (is_comment : string -> bool) (file : option (list (list string)))
    (d : SSE.data) (mode : string) (values : list R) (i : nat) (s v : R) :
  SSE.aligned d ->
  SSE.selects d mode values ->
  Sorted Rlt (SSE._sigma_values d) ->
  SSE._sigma_values d !! i = Some s ->
  values !! i = Some v ->
  SSE.interpolate_B py_float is_comment file d s mode = inr v.
Proof.
  intros Hal Hsel Hsorted Hs Hv.
  apply Sorted_StronglySorted in Hsorted; [|apply Rlt_transitive].
  pose proof (selects_length _ _ _ Hal Hsel) as Hlen.
  assert (Hne : SSE._sigma_values d <> []).
  { intros E. rewrite E in Hs. discriminate. }
  assert (Hvne : values <> []).
  { intros E. rewrite E in Hv. discriminate. }
  destruct (first_last_lookup _ Hne) as (s0 & sl & Hs0 & Hsl).
  destruct (first_last_lookup _ Hvne) as (v0 & vl & Hv0 & Hvl).
  pose proof (lookup_lt_Some _ _ _ Hs) as Hi.
  destruct (interpolate_B_cases py_float is_comment file d s mode values
              s0 sl v0 vl Hal Hsel Hs0 Hsl Hv0 Hvl)
    as [[Hc Hr]|[(Hc1 & Hc2 & Hr)|(Hc & j & slo & shi & lo & hi & Hj & Hslo & Hshi & Hlo & Hhi & Hbr & Hr)]].
  - rewrite Hr. f_equal.
    destruct (Nat.eq_dec i 0%nat) as [->|Hne0].
    + rewrite Hv0 in Hv. now injection Hv.
    + pose proof (strictly_sorted_lookup _ 0%nat i s0 s Hsorted Hs0 Hs ltac:(lia)). lra.
  - rewrite Hr. f_equal.
    destruct (Nat.eq_dec i (length (SSE._sigma_values d) - 1)%nat) as [E|Hne1].
    + rewrite <- Hlen in E. rewrite <- E in Hvl. rewrite Hvl in Hv. now injection Hv.
    + pose proof (strictly_sorted_lookup _ i (length (SSE._sigma_values d) - 1)%nat s sl
                    Hsorted Hs Hsl ltac:(lia)). lra.
  - rewrite Hr. f_equal.
    assert (Hij : i = (j - 1)%nat).
    { destruct (Nat.lt_trichotomy i (j - 1)%nat) as [Hlt|[Heq|Hgt]]; [|exact Heq|].
      - pose proof (strictly_sorted_lookup _ i (j - 1)%nat s slo Hsorted Hs Hslo Hlt). lra.
      - destruct (Nat.eq_dec i j) as [->|Hne2].
        + rewrite Hshi in Hs. injection Hs as ->. lra.
        + pose proof (strictly_sorted_lookup _ j i shi s Hsorted Hshi Hs ltac:(lia)). lra. }
    subst i. rewrite Hslo in Hs. injection Hs as ->.
    rewrite Hlo in Hv. injection Hv as ->.
    unfold Rdiv. rewrite Rminus_diag, !Rmult_0_l. lra.
Qed.

Lemma shear_table_sorted : Sorted Rlt (SSE._sigma_values shear_table).
Proof.
  simpl. apply Sorted_cons; [apply Sorted_cons; [apply Sorted_nil|apply HdRel_nil]|].
  apply HdRel_cons. lra.
Qed.

(** The theorem applied to the second point of the small table. *)
Lemma interpolate_B_at_tabulated_witness :
  SSE.interpolate_B (fun _ => None) (fun _ => false) None shear_table 100 "low" = inr 1.1.
Proof.
  exact (interpolate_B_at_tabulated (fun _ => None) (fun _ => false) None shear_table
           "low" [1; 1.1] 1 100 1.1 shear_table_aligned shear_table_low
           shear_table_sorted eq_refl eq_refl).
Defined.

(** ** Failures of the interpolator *)

Lemma sse_getitem_nil (i : Z) : SSE.getitem [] i = inl SSE.IndexError.
Proof. unfold SSE.getitem. now rewrite py_getitem_empty. Qed.

(** X14: the failures of [interpolate_B]. With loaded lists a mode other
    than ["low"] and ["high"] raises the [ValueError], whatever the
    dispersion. With empty lists the data file is read again: a missing file
    raises [FileNotFoundError]; a file without a usable row leaves the lists
    empty and a valid mode then raises [IndexError]; a file with usable rows
    answers as if its rows had been loaded before. *)
Theorem interpolate_B_failures (py_float : string -> option R)
    (is_comment : string -> bool) (sigma_v : R) (mode : string) :
  (forall (file : option (list (list string))) (d : SSE.data),
     SSE._sigma_values d <> [] -> mode <> "low" -> mode <> "high" ->
     SSE.interpolate_B py_float is_comment file d sigma_v mode = inl SSE.ValueError_mode) /\
  (forall d : SSE.data,
     SSE._sigma_values d = [] ->
     SSE.interpolate_B py_float is_comment None d sigma_v mode = inl SSE.FileNotFoundError) /\
  (forall (rows : list (list string)) (d d' : SSE.data),
     SSE._sigma_values d = [] ->
     SSE._load_data py_float is_comment (Some rows) = inr d' ->
     (SSE._sigma_values d' = [] -> mode = "low" \/ mode = "high" ->
      SSE.interpolate_B py_float is_comment (Some rows) d sigma_v mode = inl SSE.IndexError) /\
     (SSE._sigma_values d' <> [] ->
      SSE.interpolate_B py_float is_comment (Some rows) d sigma_v mode =
      SSE.interpolate_B py_float is_comment (Some rows) d' sigma_v mode)).
Proof.
  split; [|split].
  - intros file d Hne Hlow Hhigh. unfold SSE.interpolate_B.
    destruct (SSE._sigma_values d) as [|x rest]; [congruence|].
    cbn [SSE.bind].
    apply String.eqb_neq in Hlow, Hhigh. now rewrite Hlow, Hhigh.
  - intros d Hd. unfold SSE.interpolate_B. now rewrite Hd.
  - intros rows d d' Hd Hload. split.
    + intros Hd' Hmode. unfold SSE.interpolate_B. rewrite Hd, Hload. cbn [SSE.bind].
      rewrite Hd'.
      destruct Hmode as [-> | ->]; cbn [SSE.bind]; now rewrite sse_getitem_nil.
    + intros Hd'. unfold SSE.interpolate_B. rewrite Hd, Hload. cbn [SSE.bind].
      destruct (SSE._sigma_values d') as [|x rest] eqn:E; [congruence|].
      cbn [SSE.bind]. now rewrite E.
Qed.

(** ** The model functions of [shear_enhancement.py] *)

Lemma cosh_pos (x : R) : 0 < cosh x.
Proof.
  unfold cosh. pose proof (exp_pos x). pose proof (exp_pos (- x)). lra.
Qed.











(** * The erasure simulation *)

(** ** The loop of [simulate_landauer_erasure] *)

(** The excited population after an update is clamped to [[0, 1]], and
    the heat bookkeeping keeps the system energy at [P * E] and the heat
    released at [(0.5 - P) * E]. *)
Lemma update_balanced (gamma_down gamma_up E dt : R) (s : ET.state) :
  ET.system_energy s = ET.P_excited s * E ->
  ET.Q_env s = (0.5 - ET.P_excited s) * E ->
  let s' := ET.update gamma_down gamma_up E dt s in
  0 <= ET.P_excited s' <= 1 /\
  ET.system_energy s' = ET.P_excited s' * E /\
  ET.Q_env s' = (0.5 - ET.P_excited s') * E.
Proof.
  intros Hse HQ. unfold ET.update. cbn [ET.P_excited ET.system_energy ET.Q_env].
  set (P1 := ET.P_excited s +
             (- gamma_down * ET.P_excited s + gamma_up * (1.0 - ET.P_excited s)) * dt).
  destruct (Rltb P1 0) eqn:H0.
  - assert (H1 : Rltb 1 0.0 = false) by (apply Rltb_false; lra).
    rewrite H1. rewrite Hse, HQ. repeat split; lra.
  - apply Rltb_false in H0. destruct (Rltb 1 P1) eqn:H1.
    + rewrite Hse, HQ. repeat split; lra.
    + apply Rltb_false in H1. rewrite Hse, HQ. repeat split; lra.
Qed.

(** What the loop appends to the three lists. *)
Lemma erasure_loop_spec (gamma_down gamma_up E dt : R) (steps : list nat) :
  forall (s : ET.state) (times P_values Q_values times' P' Q' : list R),
    0 <= ET.P_excited s <= 1 ->
    ET.system_energy s = ET.P_excited s * E ->
    ET.Q_env s = (0.5 - ET.P_excited s) * E ->
    ET.erasure_loop gamma_down gamma_up E dt steps s times P_values Q_values =
      (times', P', Q') ->
    times' = times ++ map (fun i : nat => INR i * dt) steps /\
    exists P_new Q_new : list R,
      P' = P_values ++ P_new /\ Q' = Q_values ++ Q_new /\
      length P_new = length steps /\
      Forall (fun p => 0 <= p <= 1) P_new /\
      Forall2 (fun p q => q = (0.5 - p) * E) P_new Q_new /\
      (steps <> [] ->
       head P_new = Some (ET.P_excited s) /\ head Q_new = Some (ET.Q_env s)).
Proof.
  induction steps as [|step rest IH];
    intros s times P_values Q_values times' P' Q' HP Hse HQ Hloop.
  - simpl in Hloop. injection Hloop as <- <- <-.
    split; [now rewrite app_nil_r|].
    exists [], []. rewrite !app_nil_r.
    repeat split; try reflexivity; try apply Forall_nil_2; try apply Forall2_nil_2;
      congruence.
  - simpl in Hloop.
    destruct (update_balanced gamma_down gamma_up E dt s Hse HQ) as (HP' & Hse' & HQ').
    apply IH in Hloop; try assumption.
    destruct Hloop as (Ht & Pn & Qn & HPn & HQn & Hlen & HF & HF2 & _).
    split; [rewrite Ht, <- app_assoc; reflexivity|].
    exists (ET.P_excited s :: Pn), (ET.Q_env s :: Qn).
    split; [rewrite HPn, <- app_assoc; reflexivity|].
    split; [rewrite HQn, <- app_assoc; reflexivity|].
    split; [simpl; now rewrite Hlen|].
    split; [now apply Forall_cons_2|].
    split; [now apply Forall2_cons|].
    intros _. split; reflexivity.
Qed.

(** ** The outputs of a run *)

Lemma et_div (x y : R) : y <> 0 -> ET.div x y = inr (x / y).
Proof. intros H. unfold ET.div. apply Reqb_false in H. now rewrite H. Qed.

Lemma et_div_zero (x : R) : ET.div x 0 = inl ET.ZeroDivisionError.
Proof. unfold ET.div. now rewrite Reqb_refl. Qed.

(** A run that returns has computed the thermal occupancy and divided by
    a non-zero step; its lists are those of the loop. *)
Lemma simulate_inr_inv (exp_overflows : R -> bool) (T E gamma t_max dt : R)
    (times P Q : list R) :
  ET.simulate_landauer_erasure exp_overflows T E gamma t_max dt = inr (times, P, Q) ->
  exists n_th : R,
    ET.thermal_occupancy exp_overflows T E = inr n_th /\
    dt <> 0 /\
    ET.erasure_loop (gamma * (n_th + 1.0)) (gamma * n_th) E dt
      (seq 0 (Z.to_nat (ET.py_int (t_max / dt) + 1)))
      (ET.State 0.5 (0.5 * E) 0.0) [] [] [] = (times, P, Q).
Proof.
  unfold ET.simulate_landauer_erasure. intros H.
  destruct (ET.thermal_occupancy exp_overflows T E) as [e|n_th]; [discriminate|].
  cbn [ET.bind] in H. exists n_th. split; [reflexivity|].
  destruct (Req_dec_T dt 0) as [->|Hdt].
  - rewrite et_div_zero in H. discriminate.
  - split; [exact Hdt|]. rewrite (et_div _ _ Hdt) in H. cbn [ET.bind] in H.
    now injection H.
Qed.


(** X18: the heat bookkeeping of a run. At every recorded step the heat
    released to the environment is [(0.5 - P) * E] for the recorded
    population [P]; it never exceeds half the energy gap in absolute
    value. *)
Theorem simulate_landauer_erasure_heat (exp_overflows : R -> bool)
    (T E gamma t_max dt : R) (times P Q : list R) :
  ET.simulate_landauer_erasure exp_overflows T E gamma t_max dt = inr (times, P, Q) ->
  Forall2 (fun p q => q = (0.5 - p) * E) P Q /\
  Forall (fun q => Rabs q <= 0.5 * Rabs E) Q.
Proof.
  intros H. destruct (simulate_inr_inv _ _ _ _ _ _ _ _ _ H) as (n_th & _ & Hdt & Hloop).
  apply erasure_loop_spec in Hloop; cbn [ET.P_excited ET.system_energy ET.Q_env];
    try lra.
  destruct Hloop as (_ & Pn & Qn & HP & HQ & _ & HF & HF2 & _).
  simpl in HP, HQ. subst P Q. split; [exact HF2|].
  clear H. induction HF2 as [|p q Pn Qn Hq _ IH]; [apply Forall_nil_2|].
  apply Forall_cons_1 in HF as [Hp HF].
  apply Forall_cons_2; [|now apply IH].
  rewrite Hq, Rabs_mult. apply Rmult_le_compat_r; [apply Rabs_pos|].
  apply Rabs_le. lra.
Qed.

(** ** Runs at no temperature *)

Lemma thermal_occupancy_cold (exp_overflows : R -> bool) (T E : R) :
  T <= 0 -> ET.thermal_occupancy exp_overflows T E = inr 0.0.
Proof.
  intros H. unfold ET.thermal_occupancy.
  assert (E0 : Rltb 0 T = false) by (apply Rltb_false; lra).
  now rewrite E0.
Qed.

Lemma pow_unit_interval (r : R) (n : nat) : 0 <= r <= 1 -> 0 <= r ^ n <= 1.
Proof.
  intros H. split; [apply pow_le; lra|].
  rewrite <- (pow1 n). apply pow_incr. lra.
Qed.

(** Without excitation from the bath and with a step of at most one decay
    time, an update multiplies the population by [1 - gamma_down * dt]: no
    clamp acts. *)
Lemma update_cold (gamma_down gamma_up E dt r : R) (s : ET.state) :
  gamma_up = 0 -> 1 - gamma_down * dt = r -> 0 <= r <= 1 ->
  0 <= ET.P_excited s <= 1 ->
  ET.P_excited (ET.update gamma_down gamma_up E dt s) = ET.P_excited s * r.
Proof.
  intros -> <- Hr HP. unfold ET.update. cbn [ET.P_excited].
  set (P1 := ET.P_excited s +
             (- gamma_down * ET.P_excited s + 0 * (1.0 - ET.P_excited s)) * dt).
  assert (HP1 : P1 = ET.P_excited s * (1 - gamma_down * dt)) by (unfold P1; ring).
  assert (Hrange : 0 <= P1 <= 1) by (rewrite HP1; nra).
  assert (E0 : Rltb P1 0 = false) by (apply Rltb_false; lra).
  assert (E1 : Rltb 1 P1 = false) by (apply Rltb_false; lra).
  now rewrite E0, E1.
Qed.

Lemma erasure_loop_cold (gamma_down gamma_up E dt r : R) :
  gamma_up = 0 -> 1 - gamma_down * dt = r -> 0 <= r <= 1 ->
  forall (n a : nat) (s : ET.state) (times P_values Q_values : list R),
    ET.P_excited s = 0.5 * r ^ a ->
    ET.system_energy s = ET.P_excited s * E ->
    ET.Q_env s = (0.5 - ET.P_excited s) * E ->
    ET.erasure_loop gamma_down gamma_up E dt (seq a n) s times P_values Q_values =
    (times ++ map (fun i : nat => INR i * dt) (seq a n),
     P_values ++ map (fun i : nat => 0.5 * r ^ i) (seq a n),
     Q_values ++ map (fun i : nat => (0.5 - 0.5 * r ^ i) * E) (seq a n)).
Proof.
  intros Hup Hr Hrange n. induction n as [|n IH];
    intros a s times P_values Q_values HP Hse HQ.
  - simpl. now rewrite !app_nil_r.
  - simpl seq. simpl ET.erasure_loop.
    assert (HPr : 0 <= ET.P_excited s <= 1).
    { rewrite HP. pose proof (pow_unit_interval r a Hrange). lra. }
    destruct (update_balanced gamma_down gamma_up E dt s Hse HQ) as (_ & Hse' & HQ').
    rewrite (IH (S a) (ET.update gamma_down gamma_up E dt s)); try assumption.
    + rewrite <- !app_assoc. simpl. rewrite HQ, HP. reflexivity.
    + rewrite (update_cold gamma_down gamma_up E dt r s Hup Hr Hrange HPr), HP.
      simpl. ring.
Qed.

(** A run at a temperature that is not positive, whatever [math.exp]
    does. *)
Lemma simulate_cold (exp_overflows : R -> bool) (T E gamma t_max dt : R) :
  T <= 0 -> dt <> 0 -> 0 <= gamma * dt <= 1 ->
  ET.simulate_landauer_erasure exp_overflows T E gamma t_max dt = inr
    (map (fun i : nat => INR i * dt) (seq 0 (Z.to_nat (ET.py_int (t_max / dt) + 1))),
     map (fun i : nat => 0.5 * (1 - gamma * dt) ^ i)
       (seq 0 (Z.to_nat (ET.py_int (t_max / dt) + 1))),
     map (fun i : nat => (0.5 - 0.5 * (1 - gamma * dt) ^ i) * E)
       (seq 0 (Z.to_nat (ET.py_int (t_max / dt) + 1)))).
Proof.
  intros HT Hdt Hg. unfold ET.simulate_landauer_erasure.
  rewrite (thermal_occupancy_cold _ _ _ HT). cbn [ET.bind].
  rewrite (et_div _ _ Hdt). cbn [ET.bind].
  rewrite (erasure_loop_cold _ _ E dt (1 - gamma * dt)); cbn [ET.P_excited ET.system_energy ET.Q_env];
    try reflexivity; try lra.
Qed.


(** The run of the examples below: no temperature, unit gap, rate and
    step, one second. *)
Lemma simulate_cold_example :
  ET.simulate_landauer_erasure (fun _ => false) 0 1 1 1 1 = inr
    (map (fun i : nat => INR i * 1) (seq 0 (Z.to_nat (ET.py_int (1 / 1) + 1))),
     map (fun i : nat => 0.5 * (1 - 1 * 1) ^ i) (seq 0 (Z.to_nat (ET.py_int (1 / 1) + 1))),
     map (fun i : nat => (0.5 - 0.5 * (1 - 1 * 1) ^ i) * 1)
       (seq 0 (Z.to_nat (ET.py_int (1 / 1) + 1)))).
Proof. apply simulate_cold; lra. Qed.



(** The theorem on the heat applied to that run. *)
Lemma simulate_landauer_erasure_heat_witness :
  Forall2 (fun p q => q = (0.5 - p) * 1)
    (map (fun i : nat => 0.5 * (1 - 1 * 1) ^ i) (seq 0 (Z.to_nat (ET.py_int (1 / 1) + 1))))
    (map (fun i : nat => (0.5 - 0.5 * (1 - 1 * 1) ^ i) * 1)
       (seq 0 (Z.to_nat (ET.py_int (1 / 1) + 1)))) /\
  Forall (fun q => Rabs q <= 0.5 * Rabs 1)
    (map (fun i : nat => (0.5 - 0.5 * (1 - 1 * 1) ^ i) * 1)
       (seq 0 (Z.to_nat (ET.py_int (1 / 1) + 1)))).
Proof.
  exact (simulate_landauer_erasure_heat (fun _ => false) 0 1 1 1 1 _ _ _
           simulate_cold_example).
Defined.

(** ** The estimate of chi0 at no temperature *)








(** ** The thermal occupancy *)


